(** * Reading notes: the custom code of the hands-on-machine-learning notebooks

    The notebooks of the repository are sequences of cells that call
    TensorFlow/Keras.  The few functions they define themselves
    ([create_example], [save_tfrecords], [preprocess], [preprocess_text],
    [get_vocabulary], [BagOfWords.call]) are embedded here as Rocq
    functions, over a model of the library operations they call
    (modules [Proto] and [TF]) that follows the library's documented
    behaviour.  Failing calls, which raise in Python, return [None].
    The layer normalization of chapter 12 is float32 arithmetic compared
    with a library layer; it has no counterpart here. *)

From Stdlib Require Import ZArith Ascii String List Lia Sorting.Sorted Permutation.
From Stdlib Require Import DecimalString DecimalN.
From stdpp Require Import base decidable list gmap strings.

Import ListNotations.
Local Open Scope Z_scope.

(** Python [bytes] values and the elements of [tf.string] tensors. *)
Abbreviation bytes := (list ascii).

(** A bytes literal, [b'...']. *)
Definition b (s : string) : bytes := list_ascii_of_string s.

(* ===================================================================== *)
(** * The protocol-buffer wire format *)
(* ===================================================================== *)

Module Proto.

(** A field on the wire: its number and its payload, by wire type
    (0 varint, 1 fixed 64-bit, 2 length-delimited, 5 fixed 32-bit). *)
Inductive wire :=
  | WVarint (n : N)
  | WI64 (p : bytes)
  | WLen (p : bytes)
  | WI32 (p : bytes).

Definition field : Type := N * wire.

Definition wire_type (w : wire) : N :=
  match w with WVarint _ => 0 | WI64 _ => 1 | WLen _ => 2 | WI32 _ => 5 end.

(** Base-128 varints, least significant group first, at most ten bytes
    for a 64-bit value. *)
Fixpoint put_varint (fuel : nat) (n : N) : bytes :=
  match fuel with
  | O => []
  | S fuel' =>
      if (n <? 128)%N then [ascii_of_N n]
      else ascii_of_N (128 + n mod 128) :: put_varint fuel' (n / 128)
  end.

Definition encode_varint (n : N) : bytes := put_varint 10 (n mod 2 ^ 64).

Fixpoint get_varint (fuel : nat) (s : bytes) : option (N * bytes) :=
  match fuel, s with
  | S fuel', c :: t =>
      let v := N_of_ascii c in
      if (v <? 128)%N then Some (v, t)
      else '(hi, rest) ← get_varint fuel' t; Some (v - 128 + 128 * hi, rest)%N
  | _, _ => None
  end.

Definition decode_varint (s : bytes) : option (N * bytes) :=
  '(n, rest) ← get_varint 10 s; Some (n mod 2 ^ 64, rest)%N.

(** Signed 64-bit integers travel as the varint of their two's
    complement. *)
Definition of_int64 (z : Z) : N := Z.to_N (z mod 2 ^ 64).

Definition to_int64 (n : N) : Z :=
  if (n <? 2 ^ 63)%N then Z.of_N n else Z.of_N n - 2 ^ 64.

Definition encode_field (f : field) : bytes :=
  encode_varint (f.1 * 8 + wire_type f.2) ++
  match f.2 with
  | WVarint n => encode_varint n
  | WI64 p => p
  | WLen p => encode_varint (N.of_nat (length p)) ++ p
  | WI32 p => p
  end.

Definition encode_message (fs : list field) : bytes := concat (map encode_field fs).

Definition split_at (n : nat) (s : bytes) : option (bytes * bytes) :=
  if decide (n <= length s)%nat then Some (take n s, drop n s) else None.

(** One payload, of the wire type [wt], from the front of [s]. *)
Definition decode_payload (wt : N) (s : bytes) : option (wire * bytes) :=
  match wt with
  | 0%N => '(n, r) ← decode_varint s; Some (WVarint n, r)
  | 1%N => '(p, r) ← split_at 8 s; Some (WI64 p, r)
  | 2%N => '(len, r) ← decode_varint s; '(p, r') ← split_at (N.to_nat len) r; Some (WLen p, r')
  | 5%N => '(p, r) ← split_at 4 s; Some (WI32 p, r)
  | _ => None
  end.

(** The fields of a serialized message, in wire order.  Every field
    takes at least one byte, so the length of the input is fuel enough. *)
Fixpoint decode_fields (fuel : nat) (s : bytes) : option (list field) :=
  match s with
  | [] => Some []
  | _ :: _ =>
      match fuel with
      | O => None
      | S fuel' =>
          '(tag, s1) ← decode_varint s;
          if (tag / 8 =? 0)%N then None
          else
            '(w, s2) ← decode_payload (tag mod 8) s1;
            fs ← decode_fields fuel' s2;
            Some ((tag / 8, w)%N :: fs)
      end
  end.

Definition decode_message (s : bytes) : option (list field) :=
  decode_fields (length s) s.

(** The fields a serializer may write. *)
Definition wf_field (f : field) : Prop :=
  (1 <= f.1 < 2 ^ 29)%N /\
  match f.2 with
  | WVarint n => (n < 2 ^ 64)%N
  | WI64 p => length p = 8%nat
  | WLen p => (N.of_nat (length p) < 2 ^ 64)%N
  | WI32 p => length p = 4%nat
  end.

(** An upper bound of the size of a serialized message: twenty bytes
    cover the tag and the varint of a field. *)
Definition payload_length (w : wire) : nat :=
  match w with WVarint _ => O | WI64 p | WLen p | WI32 p => length p end.

Fixpoint size_bound (fs : list field) : nat :=
  match fs with
  | [] => O
  | f :: fs' => (20 + payload_length f.2 + size_bound fs')%nat
  end.

(** Typed access to the fields of a message. *)

(** The payloads of the length-delimited occurrences of field [k]. *)
Definition len_fields (k : N) (fs : list field) : list bytes :=
  omap (fun f : field =>
          match f.2 with
          | WLen p => if decide (f.1 = k) then Some p else None
          | _ => None
          end) fs.

(** A singular scalar field: the last occurrence counts. *)
Definition varint_field (k : N) (fs : list field) : option N :=
  last (omap (fun f : field =>
                match f.2 with
                | WVarint n => if decide (f.1 = k) then Some n else None
                | _ => None
                end) fs).

Definition bytes_field (k : N) (fs : list field) : option bytes :=
  last (len_fields k fs).

(** A singular embedded message: its occurrences merge, which is the
    parse of their concatenation. *)
Definition message_field (k : N) (fs : list field) : option bytes :=
  match len_fields k fs with
  | [] => None
  | ps => Some (concat ps)
  end.

End Proto.

(* ===================================================================== *)
(** * The library operations used by the notebooks *)
(* ===================================================================== *)

Module TF.

(** ** Dense numeric tensors (the part [BagOfWords] needs)

    A rank-2 integer tensor is the list of its rows; a rank-3 tensor the
    list of its rank-2 slices.  The entries of [one_hot] are the floats
    0.0 and 1.0 and their float32 sums are non-negative integers; they
    are kept in [Z], and every sum is rounded as float32 rounds it. *)

(** The float32 nearest to a non-negative integer far below the largest
    float.  float32 has 24 significant bits: it holds every integer
    below 2^24, and of a larger one it keeps the 24 leading bits,
    rounding to the nearest, ties to the even one. *)
Definition round_float32 (x : Z) : Z :=
  if decide (x < 2 ^ 24) then x
  else
    let ulp := 2 ^ (Z.log2 x - 23) in
    let q := x / ulp in
    let r := x mod ulp in
    if decide (2 * r < ulp) then q * ulp
    else if decide (ulp < 2 * r) then (q + 1) * ulp
    else if Z.even q then q * ulp else (q + 1) * ulp.

(** The sum of two float32 values that are such integers. *)
Definition float32_add (x y : Z) : Z := round_float32 (x + y).

(** [tf.one_hot(i, depth)] for one index: position [i] is on, every
    other position is off; an index outside [0, depth) gives all zeros. *)
Definition one_hot_index (depth : nat) (i : Z) : list Z :=
  map (fun j => if decide (i = Z.of_nat j) then 1 else 0) (seq 0 depth).

(** [tf.one_hot(indices, depth)] on a rank-2 tensor of indices. *)
Definition one_hot (indices : list (list Z)) (depth : nat) : list (list (list Z)) :=
  map (map (one_hot_index depth)) indices.

(** [tf.reduce_sum(t, axis=1)] on a float32 rank-3 tensor whose last
    dimension is [depth]: the element-wise float32 sum of the rows of
    every slice, the rows added one at a time.  The library does not
    fix the order of the additions; it does not matter as long as the
    exact sums stay within 2^24, where no addition rounds. *)
Definition reduce_sum_axis1 (depth : nat) (t : list (list (list Z))) : list (list Z) :=
  map (foldr (zip_with float32_add) (replicate depth 0)) t.

(** The slice [t[:, k:]] of a rank-2 tensor. *)
Definition slice_cols_from (k : nat) (t : list (list Z)) : list (list Z) :=
  map (drop k) t.

(** ** Tensors and their serialized form *)

(** The element types that occur ([types.proto] numbers them 1, 3, 4,
    7 and 9). *)
Inductive DType := DT_FLOAT | DT_INT32 | DT_UINT8 | DT_STRING | DT_INT64.

Global Instance DType_eq_dec : EqDecision DType.
Proof. solve_decision. Defined.

Definition dtype_code (d : DType) : N :=
  match d with
  | DT_FLOAT => 1 | DT_INT32 => 3 | DT_UINT8 => 4 | DT_STRING => 7 | DT_INT64 => 9
  end.

(** [None] for [DT_INVALID] (0) and the numbers not modelled. *)
Definition dtype_of_code (n : N) : option DType :=
  match n with
  | 1%N => Some DT_FLOAT | 3%N => Some DT_INT32 | 4%N => Some DT_UINT8
  | 7%N => Some DT_STRING | 9%N => Some DT_INT64
  | _ => None
  end.

(** Bytes per element in [tensor_content]; string tensors are not
    stored there. *)
Definition dtype_size (d : DType) : option nat :=
  match d with
  | DT_FLOAT | DT_INT32 => Some 4%nat
  | DT_UINT8 => Some 1%nat
  | DT_INT64 => Some 8%nat
  | DT_STRING => None
  end.

(** A dense numeric tensor: element type, dimensions, and the elements
    in row-major order as raw bytes. *)
Record Tensor := { dtype : DType; shape : list N; tensor_content : bytes }.

Definition num_elements (dims : list N) : N := foldr N.mul 1%N dims.

(** The content has the size the type and the dimensions ask for. *)
Definition tensor_ok (t : Tensor) : Prop :=
  exists sz, dtype_size (dtype t) = Some sz /\
    length (tensor_content t) = (N.to_nat (num_elements (shape t)) * sz)%nat.

(** [TensorShapeProto]: [repeated Dim dim = 2], [Dim.size = 1]; a
    scalar field at its default value is not written. *)
Definition encode_dim (d : N) : bytes :=
  Proto.encode_message (if decide (d = 0%N) then [] else [(1%N, Proto.WVarint d)]).

Definition encode_shape (dims : list N) : bytes :=
  Proto.encode_message (map (fun d => (2%N, Proto.WLen (encode_dim d))) dims).

Definition decode_dim (p : bytes) : option N :=
  fs ← Proto.decode_message p;
  Some (default 0%N (Proto.varint_field 1 fs)).

Definition decode_shape (p : bytes) : option (list N) :=
  fs ← Proto.decode_message p;
  mapM decode_dim (Proto.len_fields 2 fs).

(** [tf.io.serialize_tensor(t)]: the [TensorProto] with [dtype = 1],
    [tensor_shape = 2] and [tensor_content = 4]. *)
Definition serialize_tensor (t : Tensor) : bytes :=
  Proto.encode_message
    ([(1%N, Proto.WVarint (dtype_code (dtype t)));
      (2%N, Proto.WLen (encode_shape (shape t)))] ++
     match tensor_content t with
     | [] => []
     | c => [(4%N, Proto.WLen c)]
     end).

(** [tf.io.parse_tensor(serialized, out_type)].  It fails when the
    bytes are no [TensorProto], when the element type is invalid, when
    the content does not fit the shape, or when the element type is not
    [out_type].  Only tensors stored in [tensor_content] are modelled. *)
Definition parse_tensor (serialized : bytes) (out_type : DType) : option Tensor :=
  fs ← Proto.decode_message serialized;
  d ← dtype_of_code (default 0%N (Proto.varint_field 1 fs));
  dims ← decode_shape (default [] (Proto.message_field 2 fs));
  sz ← dtype_size d;
  let c := default [] (Proto.bytes_field 4 fs) in
  if decide (length c = (N.to_nat (num_elements dims) * sz)%nat /\ d = out_type)
  then Some {| dtype := d; shape := dims; tensor_content := c |}
  else None.

(** What [serialize_tensor] needs to write a tensor: every length it
    writes fits the 64 bits of a varint. *)
Definition tensor_fits (t : Tensor) : Prop :=
  Forall (fun d => d < 2 ^ 64)%N (shape t) /\
  (N.of_nat (length (encode_shape (shape t))) < 2 ^ 64)%N /\
  (N.of_nat (length (tensor_content t)) < 2 ^ 64)%N.

(** [tf.reshape(t, shape)] to fully given dimensions. *)
Definition reshape (t : Tensor) (dims : list N) : option Tensor :=
  if decide (num_elements dims = num_elements (shape t))
  then Some {| dtype := dtype t; shape := dims; tensor_content := tensor_content t |}
  else None.

(** ** [tf.train.Example] *)

(** [Feature]: a oneof of [bytes_list = 1], [float_list = 2] and
    [int64_list = 3].  A float is kept as its four bytes. *)
Inductive Feature :=
  | BytesList (value : list bytes)
  | FloatList (value : list bytes)
  | Int64List (value : list Z)
  | KindNotSet.

(** [Features(feature={...})] and [Example(features=...)]. *)
Record Features := { feature : gmap string Feature }.
Record Example := { features : Features }.

Definition encode_feature (f : Feature) : list Proto.field :=
  match f with
  | BytesList vs =>
      [(1%N, Proto.WLen (Proto.encode_message (map (fun v => (1%N, Proto.WLen v)) vs)))]
  | FloatList vs =>
      [(2%N, Proto.WLen (Proto.encode_message
                           match vs with [] => [] | _ => [(1%N, Proto.WLen (concat vs))] end))]
  | Int64List vs =>
      [(3%N, Proto.WLen (Proto.encode_message
                           match vs with
                           | [] => []
                           | _ => [(1%N, Proto.WLen
                                           (concat (map (fun v => Proto.encode_varint
                                                                    (Proto.of_int64 v)) vs)))]
                           end))]
  | KindNotSet => []
  end.

(** One entry of the [feature] map: [key = 1], [value = 2]. *)
Definition encode_entry (kv : string * Feature) : Proto.field :=
  (1%N, Proto.WLen (Proto.encode_message
                      [(1%N, Proto.WLen (list_ascii_of_string kv.1));
                       (2%N, Proto.WLen (Proto.encode_message (encode_feature kv.2)))])).

(** [Example.SerializeToString()]. *)
Definition SerializeToString (e : Example) : bytes :=
  Proto.encode_message
    [(1%N, Proto.WLen (Proto.encode_message
                         (map encode_entry (map_to_list (feature (features e))))))].

(** Packed repeated scalars. *)
Fixpoint unpack_varints (fuel : nat) (s : bytes) : option (list N) :=
  match s with
  | [] => Some []
  | _ :: _ =>
      match fuel with
      | O => None
      | S fuel' =>
          '(n, r) ← Proto.decode_varint s;
          ns ← unpack_varints fuel' r;
          Some (n :: ns)
      end
  end.

Fixpoint unpack_fixed32 (fuel : nat) (s : bytes) : option (list bytes) :=
  match s with
  | [] => Some []
  | _ :: _ =>
      match fuel with
      | O => None
      | S fuel' =>
          '(p, r) ← Proto.split_at 4 s;
          ps ← unpack_fixed32 fuel' r;
          Some (p :: ps)
      end
  end.

(** The values of a repeated scalar field 1, packed or not. *)
Definition decode_int64s (p : bytes) : option (list Z) :=
  fs ← Proto.decode_message p;
  vss ← mapM (fun f : Proto.field =>
                if decide (f.1 = 1%N) then
                  match f.2 with
                  | Proto.WVarint n => Some [Proto.to_int64 n]
                  | Proto.WLen q => map Proto.to_int64 <$> unpack_varints (length q) q
                  | _ => Some []
                  end
                else Some []) fs;
  Some (concat vss).

Definition decode_floats (p : bytes) : option (list bytes) :=
  fs ← Proto.decode_message p;
  vss ← mapM (fun f : Proto.field =>
                if decide (f.1 = 1%N) then
                  match f.2 with
                  | Proto.WI32 q => Some [q]
                  | Proto.WLen q => unpack_fixed32 (length q) q
                  | _ => Some []
                  end
                else Some []) fs;
  Some (concat vss).

(** The member of the oneof that is set after the fields [fs]: a member
    seen again merges with itself, another member replaces it. *)
Definition oneof_kind (fs : list Proto.field) : option (N * bytes) :=
  foldl (fun st (f : Proto.field) =>
           match f.2 with
           | Proto.WLen p =>
               if decide (f.1 = 1%N \/ f.1 = 2%N \/ f.1 = 3%N) then
                 match st with
                 | Some (k, q) => if decide (k = f.1) then Some (k, q ++ p) else Some (f.1, p)
                 | None => Some (f.1, p)
                 end
               else st
           | _ => st
           end) None fs.

Definition decode_feature (p : bytes) : option Feature :=
  fs ← Proto.decode_message p;
  match oneof_kind fs with
  | None => Some KindNotSet
  | Some (k, q) =>
      if decide (k = 1%N) then
        fs' ← Proto.decode_message q; Some (BytesList (Proto.len_fields 1 fs'))
      else if decide (k = 2%N) then FloatList <$> decode_floats q
      else Int64List <$> decode_int64s q
  end.

(** One entry of the [feature] map.  The parser of
    [tf.io.parse_single_example] wants the value of every entry: an
    entry without value is an error. *)
Definition decode_entry (p : bytes) : option (string * Feature) :=
  fs ← Proto.decode_message p;
  value ← Proto.message_field 2 fs;
  f ← decode_feature value;
  Some (string_of_list_ascii (default [] (Proto.bytes_field 1 fs)), f).

(** Parsing a serialized [Example]; of two entries with one key the
    later one counts. *)
Definition ParseFromString (serialized : bytes) : option Example :=
  fs ← Proto.decode_message serialized;
  fs' ← Proto.decode_message (default [] (Proto.message_field 1 fs));
  entries ← mapM decode_entry (Proto.len_fields 1 fs');
  Some {| features := {| feature := list_to_map (reverse entries) |} |}.

(** ** [tf.io.parse_single_example] *)

(** The scalar values it produces. *)
Inductive value :=
  | StringVal (s : bytes)
  | FloatVal (raw : bytes)
  | Int64Val (z : Z).

(** [tf.io.FixedLenFeature([], dtype, default_value)], a scalar
    feature. *)
Record FixedLenFeature := { fl_dtype : DType; fl_default : option value }.

(** One dense feature.  A key that is absent, or present with no kind
    set, takes the default value if there is one and is an error
    otherwise; a feature of another kind, or with another number of
    values than one, is an error. *)
Definition parse_dense (e : Example) (key : string) (d : FixedLenFeature) : option value :=
  match feature (features e) !! key with
  | None | Some KindNotSet => fl_default d
  | Some (BytesList vs) =>
      match fl_dtype d, vs with
      | DT_STRING, [v] => Some (StringVal v)
      | _, _ => None
      end
  | Some (FloatList vs) =>
      match fl_dtype d, vs with
      | DT_FLOAT, [v] => Some (FloatVal v)
      | _, _ => None
      end
  | Some (Int64List vs) =>
      match fl_dtype d, vs with
      | DT_INT64, [v] => Some (Int64Val v)
      | _, _ => None
      end
  end.

(** The result is the dict of the parsed features. *)
Definition parse_single_example (serialized : bytes)
    (descriptions : list (string * FixedLenFeature)) : option (gmap string value) :=
  e ← ParseFromString serialized;
  kvs ← mapM (fun kd : string * FixedLenFeature =>
                v ← parse_dense e kd.1 kd.2; Some (kd.1, v)) descriptions;
  Some (list_to_map kvs).

(** ** TFRecord files

    A file is the sequence of the records written to it; the framing of
    a record (its length and checksums) is the writer's and the
    reader's business and is left out.  The files are a map from paths
    to contents.  A path is the string the program passes: which
    strings name one file (['a'] and ['./a'], links) is the file
    system's business and is not modelled, so the map says what is read
    back through the paths a call was given and nothing about other
    spellings. *)
Abbreviation files := (gmap string (list bytes)).

(** [tf.io.TFRecordWriter(path)]: the file is created, or emptied. *)
Definition TFRecordWriter (path : string) (fs : files) : files := <[path := []]> fs.

(** [writer.write(record)] on the writer of [path]. *)
Definition write (path : string) (record : bytes) (fs : files) : files :=
  alter (fun records => records ++ [record]) path fs.

(** ** String tensors *)

(** [tf.shape(x)] of a rank-1 tensor: the one-element int32 vector of
    its size (a tensor dimension is below 2^31, so none of the shape
    computations of the notebooks wraps around). *)
Definition shape1 {A} (x : list A) : list Z := [Z.of_nat (length x)].

(** Element-wise binary operators on rank-1 tensors, with NumPy-style
    broadcasting: equal sizes combine position by position, a size-1
    operand is stretched, anything else is an error. *)
Definition broadcast (f : Z -> Z -> Z) (x y : list Z) : option (list Z) :=
  if decide (length x = length y) then Some (zip_with f x y)
  else match x, y with
       | [a], _ => Some (map (f a) y)
       | _, [c] => Some (map (fun a => f a c) x)
       | _, _ => None
       end.

(** [tf.strings.substr(s, pos, len)] with the default byte unit and
    [pos] inside the string: at most [len] bytes from [pos]. *)
Definition substr (pos len : nat) (s : bytes) : bytes := take len (drop pos s).

(** [tf.strings.lower] with the default (ASCII) encoding. *)
Definition lower_byte (c : ascii) : ascii :=
  let n := N_of_ascii c in
  if ((65 <=? n) && (n <=? 90))%N then ascii_of_N (n + 32) else c.

Definition lower (s : bytes) : bytes := map lower_byte s.

(** A regular expression is modelled by its matcher at the start of a
    string: the length of the leftmost-first match there, if any.  RE2
    reads the text as UTF-8.  The pattern [<br\s*/?>] names ASCII bytes
    only and is matched byte by byte; a character class matches one
    character, of one byte (ASCII) or of several. *)
Definition matcher := bytes -> option nat.

(** RE2's [\s]: tab, newline, form feed, carriage return, space. *)
Definition re_space (c : ascii) : bool :=
  let n := N_of_ascii c in
  ((n =? 9) || (n =? 10) || (n =? 12) || (n =? 13) || (n =? 32))%N.

Fixpoint count_spaces (s : bytes) : nat :=
  match s with
  | c :: t => if re_space c then S (count_spaces t) else O
  | [] => O
  end.

(** The pattern [<br\s*/?>].  The classes [\s], [/] and [>] are
    disjoint, so the greedy match is the only one. *)
Definition re_br : matcher := fun s =>
  match s with
  | "<"%char :: "b"%char :: "r"%char :: t =>
      let k := count_spaces t in
      let t1 := drop k t in
      match t1 with
      | "/"%char :: ">"%char :: _ => Some (3 + k + 2)%nat
      | ">"%char :: _ => Some (3 + k + 1)%nat
      | _ => None
      end
  | _ => None
  end.

(** The pattern [[^a-z]]: one character that is not a lower-case
    letter.  An ASCII byte is a character.  A byte from 0x80 on starts
    a character only as the lead byte of a UTF-8 sequence with all its
    continuation bytes, which RE2 compiles for the range 80-10FFFF as
    [C2-DF][80-BF], [E0-EF][80-BF][80-BF] and
    [F0-F4][80-BF][80-BF][80-BF]; any other such byte (a lead byte cut
    from its continuation, a stray continuation byte) matches nothing
    and stays in the text. *)
Definition is_lower (c : ascii) : bool :=
  let n := N_of_ascii c in ((97 <=? n) && (n <=? 122))%N.

Definition is_continuation (c : ascii) : bool :=
  let n := N_of_ascii c in ((128 <=? n) && (n <=? 191))%N.

Definition re_not_lower : matcher := fun s =>
  match s with
  | [] => None
  | c :: t =>
      let n := N_of_ascii c in
      if (n <? 128)%N then (if is_lower c then None else Some 1%nat)
      else if ((194 <=? n) && (n <=? 223))%N then
        match t with
        | c1 :: _ => if is_continuation c1 then Some 2%nat else None
        | _ => None
        end
      else if ((224 <=? n) && (n <=? 239))%N then
        match t with
        | c1 :: c2 :: _ =>
            if is_continuation c1 && is_continuation c2 then Some 3%nat else None
        | _ => None
        end
      else if ((240 <=? n) && (n <=? 244))%N then
        match t with
        | c1 :: c2 :: c3 :: _ =>
            if is_continuation c1 && is_continuation c2 && is_continuation c3
            then Some 4%nat else None
        | _ => None
        end
      else None
  end.

(** [tf.strings.regex_replace(s, pattern, rewrite)], every
    non-overlapping match replaced, scanning from the left.  [skip]
    counts the bytes of the current match still to be passed over. *)
Fixpoint regex_replace_from (skip : nat) (m : matcher) (rewrite : bytes) (s : bytes) : bytes :=
  match s with
  | [] => []
  | c :: t =>
      match skip with
      | S k => regex_replace_from k m rewrite t
      | O =>
          match m s with
          | Some (S k) => rewrite ++ regex_replace_from k m rewrite t
          | _ => c :: regex_replace_from O m rewrite t
          end
      end
  end.

Definition regex_replace (m : matcher) (rewrite : bytes) (s : bytes) : bytes :=
  regex_replace_from O m rewrite s.

(** White space for [tf.strings.split] without separator. *)
Definition is_space (c : ascii) : bool :=
  let n := N_of_ascii c in (((9 <=? n) && (n <=? 13)) || (n =? 32))%N.

(** [tf.strings.split(s)]: the maximal runs of non-space bytes. [cur]
    is the token being read. *)
Fixpoint split_from (cur : bytes) (s : bytes) : list bytes :=
  match s with
  | [] => match cur with [] => [] | _ => [cur] end
  | c :: t =>
      if is_space c
      then match cur with [] => split_from [] t | _ => cur :: split_from [] t end
      else split_from (cur ++ [c]) t
  end.

Definition split (s : bytes) : list bytes := split_from [] s.

(** [RaggedTensor.to_tensor(shape=[rows, cols], default_value=d)] on a
    ragged rank-2 tensor: every row is cut or padded to [cols] entries,
    and the rows to [rows] rows.  Other shapes are not used here. *)
Definition to_tensor {A} (shape : list Z) (d : A) (rt : list (list A)) : option (list (list A)) :=
  match shape with
  | [rows; cols] =>
      if decide (0 <= rows /\ 0 <= cols)
      then Some (resize (Z.to_nat rows) (replicate (Z.to_nat cols) d)
                        (map (resize (Z.to_nat cols) d) rt))
      else None
  | _ => None
  end.

(** ** Lookup tables *)

(** [tf.lookup.StaticVocabularyTable(initializer, num_oov_buckets)]
    over string keys: the key-value table of the initializer and the
    number of buckets for the other keys. *)
Record StaticVocabularyTable := { table_ids : gmap bytes Z; num_oov_buckets : Z }.

(** [StaticVocabularyTable(KeyValueTensorInitializer(keys, values),
    num_oov_buckets)].  The keys and the values pair up; a key given
    twice with two values and a number of buckets that is not positive
    are errors. *)
Definition make_table (keys : list bytes) (values : list Z) (num_oov : Z) :
    option StaticVocabularyTable :=
  let ids : gmap bytes Z := list_to_map (zip keys values) in
  if decide (length keys = length values /\
             Forall (fun kv : bytes * Z => ids !! kv.1 = Some kv.2) (zip keys values) /\
             0 < num_oov)
  then Some {| table_ids := ids; num_oov_buckets := num_oov |}
  else None.

(** [table.lookup(key)]: the value of the key, and for a key that is
    not in the table (the table answers its default -1) the size of the
    table plus the bucket of the key, which is its fingerprint modulo
    the number of buckets.  The fingerprint function is the library's. *)
Definition table_lookup (Fingerprint64 : bytes -> N) (t : StaticVocabularyTable)
    (key : bytes) : Z :=
  let id := default (-1) (table_ids t !! key) in
  if decide (id = -1)
  then Z.of_nat (size (table_ids t)) + Z.of_N (Fingerprint64 key) mod num_oov_buckets t
  else id.

(** [tf.data.Dataset.from_tensor_slices((a, b))]: the pairs of the
    elements at the same position; the two tensors have one size. *)
Definition from_tensor_slices {A B} (a : list A) (c : list B) : option (list (A * B)) :=
  if decide (length a = length c) then Some (zip a c) else None.

End TF.

(* ===================================================================== *)
(** * Chapter 13: loading and preprocessing data *)
(* ===================================================================== *)

Module Chapter13.

(** ** Fashion MNIST as TFRecord files *)

(** [def create_example(image, label)]:
    [image_data = tf.io.serialize_tensor(image)];
    [return Example(features=Features(feature={]
    ['image': Feature(bytes_list=BytesList(value=[image_data.numpy()])),]
    ['label': Feature(int64_list=Int64List(value=[label]))}))].
    [label] is an int64 scalar tensor; a value outside the int64 range
    does not occur. *)
Definition create_example (image : TF.Tensor) (label : Z) : TF.Example :=
  let image_data := TF.serialize_tensor image in
  {| TF.features :=
       {| TF.feature :=
            <["image"%string := TF.BytesList [image_data]]>
              (<["label"%string := TF.Int64List [label]]> ∅) |} |}.

(** [f"{idx:02d}"] for an index that is not negative. *)
Definition format_02d (idx : N) : string :=
  let digits := NilZero.string_of_uint (N.to_uint idx) in
  if decide (String.length digits < 2)%nat then ("0" ++ digits)%string else digits.

(** [f"{name}_{idx:02d}.tfrecord"]. *)
Definition filepath (name : string) (idx : N) : string :=
  (name ++ "_" ++ format_02d idx ++ ".tfrecord")%string.

(** [range(n)] as a list. *)
Definition range (n : Z) : list N := map N.of_nat (seq 0 (Z.to_nat n)).

(** [writers[file_idx]] on a Python list. *)
Definition list_index {A} (l : list A) (i : Z) : option A :=
  if decide (0 <= i) then l !! Z.to_nat i
  else if decide (0 <= Z.of_nat (length l) + i) then l !! Z.to_nat (Z.of_nat (length l) + i)
  else None.

(** The body of the loop of [save_tfrecords]:
    [file_idx = idx % n_records];
    [writers[file_idx].write(create_example(image, label).SerializeToString())].
    The remainder by zero and an index outside [writers] raise. *)
Definition save_item (writers : list string) (n_records : Z)
    (st : option TF.files) (item : nat * (TF.Tensor * Z)) : option TF.files :=
  fs ← st;
  let '(idx, (image, label)) := item in
  if decide (n_records = 0) then None
  else
    let file_idx := Z.of_nat idx mod n_records in
    writer ← list_index writers file_idx;
    Some (TF.write writer (TF.SerializeToString (create_example image label)) fs).

(** [def save_tfrecords(name, data, n_records=20)]:
    [filepaths = [f"{name}_{idx:02d}.tfrecord" for idx in range(n_records)]];
    [writers = [stack.enter_context(tf.io.TFRecordWriter(path)) for path in filepaths]];
    [for idx, (image, label) in data.enumerate(): ...];
    [return filepaths].
    The files are threaded through; a writer is known by its path. *)
Definition save_tfrecords (name : string) (data : list (TF.Tensor * Z)) (n_records : Z)
    (fs : TF.files) : option (list string * TF.files) :=
  let filepaths := map (filepath name) (range n_records) in
  let fs := foldl (fun fs path => TF.TFRecordWriter path fs) fs filepaths in
  let writers := filepaths in
  fs ← foldl (save_item writers n_records) (Some fs) (imap (fun idx x => (idx, x)) data);
  Some (filepaths, fs).


(** [def preprocess(tfrecord)]:
    [feature_descriptions = {]
    ['image': tf.io.FixedLenFeature([], tf.string, default_value=""),]
    ['label': tf.io.FixedLenFeature([], tf.int64, default_value=-1)}];
    [example = tf.io.parse_single_example(tfrecord, feature_descriptions)];
    [image = tf.io.parse_tensor(example['image'], out_type=tf.uint8)];
    [return tf.reshape(image, shape=[28, 28]), example['label']]. *)
Definition preprocess (tfrecord : bytes) : option (TF.Tensor * Z) :=
  let feature_descriptions :=
    [("image"%string, {| TF.fl_dtype := TF.DT_STRING; TF.fl_default := Some (TF.StringVal []) |});
     ("label"%string, {| TF.fl_dtype := TF.DT_INT64; TF.fl_default := Some (TF.Int64Val (-1)) |})] in
  example ← TF.parse_single_example tfrecord feature_descriptions;
  image_bytes ← match example !! "image"%string with Some (TF.StringVal s) => Some s | _ => None end;
  image ← TF.parse_tensor image_bytes TF.DT_UINT8;
  reshaped ← TF.reshape image [28%N; 28%N];
  label ← match example !! "label"%string with Some (TF.Int64Val z) => Some z | _ => None end;
  Some (reshaped, label).

(** ** Text preprocessing *)

Definition pad : bytes := b "<pad>".

(** [def preprocess_text(X_batch, n_words=50)]:
    [shape = tf.shape(X_batch) * tf.constant([1, 0]) + tf.constant([0, 50])];
    [Z = tf.strings.substr(X_batch, 0, 300)];
    [Z = tf.strings.lower(Z)];
    [Z = tf.strings.regex_replace(Z, b'<br\\s*/?>', b' ')];
    [Z = tf.strings.regex_replace(Z, b'[^a-z]', b' ')];
    [Z = tf.strings.split(Z)];
    [return Z.to_tensor(shape=shape, default_value=b'<pad>')]. *)
Definition preprocess_text (X_batch : list bytes) (n_words : Z) : option (list (list bytes)) :=
  shape ← TF.broadcast Z.mul (TF.shape1 X_batch) [1; 0] ≫= (fun s => TF.broadcast Z.add s [0; 50]);
  let Z := map (TF.substr 0 300) X_batch in
  let Z := map TF.lower Z in
  let Z := map (TF.regex_replace TF.re_br (b " ")) Z in
  let Z := map (TF.regex_replace TF.re_not_lower (b " ")) Z in
  let Z := map TF.split Z in
  TF.to_tensor shape pad Z.

(** ** [collections.Counter] over words

    A counter is a dict: its items are kept in the order of first
    insertion. *)
Definition Counter := list (bytes * Z).

(** [counter[word] += 1]. *)
Fixpoint counter_incr (word : bytes) (counter : Counter) : Counter :=
  match counter with
  | [] => [(word, 1)]
  | (k, v) :: rest =>
      if decide (k = word) then (k, v + 1) :: rest
      else (k, v) :: counter_incr word rest
  end.

(** One step of the stable descending sort by count: [x] goes before
    the first item whose count is not greater than its own. *)
Fixpoint insert_desc (x : bytes * Z) (l : Counter) : Counter :=
  match l with
  | [] => [x]
  | y :: l' => if decide (y.2 <= x.2) then x :: l else y :: insert_desc x l'
  end.

(** [sorted(items, key=itemgetter(1), reverse=True)]. *)
Definition sorted_desc (l : Counter) : Counter := foldr insert_desc [] l.

(** [Counter.most_common(n)], which is
    [heapq.nlargest(n, self.items(), key=itemgetter(1))]: the first [n]
    items of the stable descending sort (none when [n <= 0]). *)
Definition most_common (n : Z) (counter : Counter) : Counter :=
  take (Z.to_nat n) (sorted_desc counter).

(** The two nested loops of [get_vocabulary]. *)
Definition count_words (preprocessed_reviews : list (list bytes)) : Counter :=
  foldl (fun counter words =>
           foldl (fun counter word =>
                    if decide (word <> pad) then counter_incr word counter else counter)
                 counter words)
        [] preprocessed_reviews.

(** [def get_vocabulary(data_sample, max_size=1000)]. *)
Definition get_vocabulary (data_sample : list bytes) (max_size : Z) : option (list bytes) :=
  preprocessed_reviews ← preprocess_text data_sample 50;
  let counter := count_words preprocessed_reviews in
  Some ([pad] ++ map fst (most_common max_size counter)).

(** ** [class BagOfWords(keras.layers.Layer)] *)
Module BagOfWords.

(** The layer object: [self.n_tokens]. *)
Record t := { n_tokens : nat }.

(** [def call(self, inputs)]:
    [one_hot = tf.one_hot(inputs, self.n_tokens)];
    [return tf.reduce_sum(one_hot, axis=1)[:, 1:]]. *)
Definition call (self : t) (inputs : list (list Z)) : list (list Z) :=
  let one_hot := TF.one_hot inputs (n_tokens self) in
  TF.slice_cols_from 1 (TF.reduce_sum_axis1 (n_tokens self) one_hot).

End BagOfWords.

(** ** The reviews and their split *)

(** The cell that splits the test directory in two:
    [perm = np.random.RandomState(42).permutation(len(test_val_pos))];
    [test_val_pos = test_val_pos[perm]];
    [test_val_neg = test_val_neg[perm]];
    [test_pos = test_val_pos[:5000]]; [test_neg = test_val_neg[:5000]];
    [val_pos = test_val_pos[5000:]]; [val_neg = test_val_neg[5000:]].
    [perm] is the permutation the generator drew.  Indexing an array by
    an array of positions raises when a position is outside the array. *)
Definition index_array {A} (a : list A) (positions : list nat) : option (list A) :=
  mapM (fun i => a !! i) positions.

Definition split_test_val (perm : list nat) (test_val_pos test_val_neg : list string) :
    option (list string * list string * list string * list string) :=
  test_val_pos ← index_array test_val_pos perm;
  test_val_neg ← index_array test_val_neg perm;
  let test_pos := take 5000 test_val_pos in
  let test_neg := take 5000 test_val_neg in
  let val_pos := drop 5000 test_val_pos in
  let val_neg := drop 5000 test_val_neg in
  Some (test_pos, test_neg, val_pos, val_neg).

(** [def create_dataset(filepaths_pos, filepaths_neg)]:
    [reviews = []]; [labels = []];
    [for filepaths, label in ((filepaths_pos, 1), (filepaths_neg, 0)):]
    [for filepath in filepaths:]
    [with open(filepath) as review: reviews.append(review.read())];
    [labels.append(label)];
    [return tf.data.Dataset.from_tensor_slices((tf.constant(reviews), tf.constant(labels)))].
    [texts] gives the text [open(path).read()] returns for the paths
    that can be opened; opening another path raises. *)
Definition create_dataset (texts : gmap string bytes)
    (filepaths_pos filepaths_neg : list string) : option (list (bytes * Z)) :=
  '(reviews, labels) ←
    foldl (fun st (group : list string * Z) =>
             let '(filepaths, label) := group in
             foldl (fun st filepath =>
                      '(reviews, labels) ← st;
                      review ← texts !! filepath;
                      Some (reviews ++ [review], labels ++ [label]))
                   st filepaths)
          (Some ([], [])) [(filepaths_pos, 1); (filepaths_neg, 0)];
  TF.from_tensor_slices reviews labels.

(** ** [class TextVectorization(keras.layers.Layer)] *)
Module TextVectorization.

(** The layer object: [self.max_vocabulary_size], [self.n_oov_buckets]
    and, once [adapt] has run, [self.vocab] and [self.table]. *)
Record t := {
  max_vocabulary_size : Z;
  n_oov_buckets : Z;
  vocab : option (list bytes);
  table : option TF.StaticVocabularyTable
}.

(** [def __init__(self, max_vocabulary_size=1000, n_oov_buckets=100, ...)]. *)
Definition init (max_vocabulary_size n_oov_buckets : Z) : t :=
  {| max_vocabulary_size := max_vocabulary_size; n_oov_buckets := n_oov_buckets;
     vocab := None; table := None |}.

(** [def adapt(self, data_sample)]:
    [self.vocab = get_vocabulary(data_sample, self.max_vocabulary_size)];
    [words = tf.constant(self.vocab)];
    [word_ids = tf.range(len(self.vocab), dtype=tf.int64)];
    [vocab_init = tf.lookup.KeyValueTensorInitializer(words, word_ids)];
    [self.table = tf.lookup.StaticVocabularyTable(vocab_init, self.n_oov_buckets)]. *)
Definition adapt (self : t) (data_sample : list bytes) : option t :=
  vocab ← get_vocabulary data_sample (max_vocabulary_size self);
  let words := vocab in
  let word_ids := seqZ 0 (Z.of_nat (length vocab)) in
  table ← TF.make_table words word_ids (n_oov_buckets self);
  Some {| max_vocabulary_size := max_vocabulary_size self;
          n_oov_buckets := n_oov_buckets self;
          vocab := Some vocab; table := Some table |}.

(** [def call(self, inputs)]:
    [preprocessed_inputs = preprocess_text(inputs)];
    [return self.table.lookup(preprocessed_inputs)].
    Before [adapt] there is no [self.table]. *)
Definition call (Fingerprint64 : bytes -> N) (self : t) (inputs : list bytes) :
    option (list (list Z)) :=
  preprocessed_inputs ← preprocess_text inputs 50;
  table ← table self;
  Some (map (map (TF.table_lookup Fingerprint64 table)) preprocessed_inputs).

End TextVectorization.

(** The cell after the two layers:
    [n_tokens = max_vocabulary_size + n_oov_buckets + 1]. *)
Definition n_tokens (max_vocabulary_size n_oov_buckets : Z) : Z :=
  max_vocabulary_size + n_oov_buckets + 1.

End Chapter13.

(* ===================================================================== *)
(** * Vocabulary of the statements *)
(* ===================================================================== *)

(** The values of the two parameters: a 28x28 [uint8] image and an
    [int64] label. *)
Definition is_image (image : TF.Tensor) : Prop :=
  TF.dtype image = TF.DT_UINT8 /\
  TF.shape image = [28%N; 28%N] /\
  length (TF.tensor_content image) = 784%nat.

Definition is_int64 (label : Z) : Prop := - 2 ^ 63 <= label < 2 ^ 63.

(** The words of one review, as the steps of [preprocess_text] leave
    them before padding. *)
Definition words_of (x : bytes) : list bytes :=
  TF.split
    (TF.regex_replace TF.re_not_lower (b " ")
       (TF.regex_replace TF.re_br (b " ") (TF.lower (TF.substr 0 300 x)))).

(** The position of a word in a vocabulary, which is the id the lookup
    table of [TextVectorization] gives to a word of the vocabulary. *)
Definition word_id (vocab : list bytes) (w : bytes) : option nat :=
  fst <$> list_find (fun w' => w' = w) vocab.

(** The two reviews [X_example] of the notebook. *)
Definition X_example : list bytes :=
  [b "It's a great, great movie! I loved it."; b "It was terrible, run away!!!"].

(** The number of times [w] occurs in a preprocessed sample. *)
Definition frequency (preprocessed_reviews : list (list bytes)) (w : bytes) : Z :=
  Z.of_nat (length (filter (fun w' => w' = w) (concat preprocessed_reviews))).

(** What a counter holds after the words [ws] were counted: every key
    once, with its number of occurrences. *)
Definition counts_of (ws : list bytes) (counter : Chapter13.Counter) : Prop :=
  NoDup counter.*1 /\
  (forall w, w ∈ ws -> w ∈ counter.*1) /\
  forall k v, (k, v) ∈ counter ->
    k ∈ ws /\ v = Z.of_nat (length (filter (fun w' => w' = k) ws)).

(** The record [save_tfrecords] writes for one item of the dataset. *)
Definition record_of (item : TF.Tensor * Z) : bytes :=
  TF.SerializeToString (Chapter13.create_example item.1 item.2).

(** The items of a dataset at the positions congruent to [j] modulo
    [n], in the order of the dataset. *)
Definition shard {A} (n j : nat) (data : list A) : list A :=
  (filter (fun kx : nat * A => kx.1 mod n = j)%nat (imap (fun k x => (k, x)) data)).*2.

(** A 28x28 image, and an example that has an image and no label. *)
Definition sample_image : TF.Tensor :=
  {| TF.dtype := TF.DT_UINT8; TF.shape := [28%N; 28%N];
     TF.tensor_content := replicate 784 "a"%char |}.

Definition unlabeled_example : TF.Example :=
  {| TF.features :=
       {| TF.feature := {[ "image"%string := TF.BytesList [TF.serialize_tensor sample_image] ]} |} |}.

(** A numeric tensor that [create_example] can be given: its content
    has the size of its dimensions, of which there are at most 254, each
    below 2^63, and it is below the 2 GiB a serialized message can
    hold. *)
Definition is_tensor (t : TF.Tensor) : Prop :=
  TF.tensor_ok t /\
  (length (TF.shape t) <= 254)%nat /\
  Forall (fun d => d < 2 ^ 63)%N (TF.shape t) /\
  (N.of_nat (length (TF.tensor_content t)) < 2 ^ 31)%N.

(** A word: one lower-case letter or more. *)
Definition is_word (w : bytes) : Prop :=
  w <> [] /\ Forall (fun c => TF.is_lower c = true) w.

(** A token: one byte or more, each a lower-case letter or a byte from
    0x80 on (one that the character class left in place). *)
Definition is_token (w : bytes) : Prop :=
  w <> [] /\ Forall (fun c => TF.is_lower c = true \/ (128 <= N_of_ascii c)%N) w.

(** A text of ASCII bytes. *)
Definition ascii_text (s : bytes) : Prop := Forall (fun c => (N_of_ascii c < 128)%N) s.

(** The sum of the entries of a row. *)
Definition row_sum (row : list Z) : Z := foldr Z.add 0 row.

(** The number of entries of a row that are token ids from 1 to
    [n - 1]. *)
Definition count_tokens (n : nat) (row : list Z) : Z :=
  Z.of_nat (length (filter (fun x => 1 <= x < Z.of_nat n) row)).

(* ===================================================================== *)
(** * Properties *)
(* ===================================================================== *)

(** Decisions between field numbers, settled by evaluation. *)
Ltac decide_numbers :=
  repeat match goal with
         | |- context [decide (?a = ?c)] => destruct (decide (a = c)); [|congruence]
         | |- context [decide (?a = ?c)] => destruct (decide (a = c)); [discriminate|]
         end.

(** ** Bag of words *)

Section BagOfWordsFacts.

Import Chapter13.

Lemma one_hot_index_length depth i : length (TF.one_hot_index depth i) = depth.
Proof. unfold TF.one_hot_index. by rewrite length_map, length_seq. Qed.

Lemma one_hot_index_lookup depth i j :
  (j < depth)%nat ->
  TF.one_hot_index depth i !! j = Some (if decide (i = Z.of_nat j) then 1 else 0).
Proof.
  intros Hj. unfold TF.one_hot_index.
  rewrite list_lookup_fmap, lookup_seq_lt by done. reflexivity.
Qed.

(** Summing the one-hot rows of a sequence of token ids exactly
    counts, at position [j], the occurrences of the id [j]. *)
Lemma sum_one_hot_lookup depth (row : list Z) j :
  (j < depth)%nat ->
  foldr (zip_with Z.add) (replicate depth 0) (map (TF.one_hot_index depth) row) !! j
  = Some (Z.of_nat (count_occ Z.eq_dec row (Z.of_nat j))).
Proof.
  intros Hj. induction row as [|x row IH]; simpl.
  - by rewrite lookup_replicate_2.
  - rewrite lookup_zip_with, one_hot_index_lookup, IH by done. simpl.
    destruct (Z.eq_dec x (Z.of_nat j)) as [->|Hne].
    + rewrite decide_True by done. f_equal. lia.
    + rewrite decide_False by done. f_equal.
Qed.

(** float32 holds the integers up to 2^24, and not 2^24 + 1. *)
Lemma round_float32_exact x : x <= 2 ^ 24 -> TF.round_float32 x = x.
Proof.
  intros Hx. destruct (decide (x = 2 ^ 24)) as [->|Hne]; [by vm_compute|].
  unfold TF.round_float32. rewrite decide_True by lia. done.
Qed.

Lemma round_float32_odd : TF.round_float32 (2 ^ 24 + 1) = 2 ^ 24.
Proof. by vm_compute. Qed.

(** The float32 sum of the one-hot rows counts up to 2^24 and stays
    there. *)
Lemma sum_float32_lookup depth (row : list Z) j :
  (j < depth)%nat ->
  foldr (zip_with TF.float32_add) (replicate depth 0) (map (TF.one_hot_index depth) row) !! j
  = Some (Z.min (Z.of_nat (count_occ Z.eq_dec row (Z.of_nat j))) (2 ^ 24)).
Proof.
  intros Hj. induction row as [|x row IH]; simpl.
  - by rewrite lookup_replicate_2.
  - rewrite lookup_zip_with, one_hot_index_lookup, IH by done. simpl. f_equal.
    set (c := count_occ Z.eq_dec row (Z.of_nat j)). unfold TF.float32_add.
    destruct (Z.eq_dec x (Z.of_nat j)) as [->|Hne].
    + rewrite decide_True by done.
      destruct (decide (Z.of_nat c < 2 ^ 24)) as [Hc|Hc].
      * rewrite round_float32_exact by lia. lia.
      * replace (1 + Z.min (Z.of_nat c) (2 ^ 24)) with (2 ^ 24 + 1) by lia.
        rewrite round_float32_odd. lia.
    + rewrite decide_False by done. rewrite round_float32_exact by lia. lia.
Qed.

Lemma sum_float32_length depth (row : list Z) :
  length (foldr (zip_with TF.float32_add) (replicate depth 0)
                (map (TF.one_hot_index depth) row))
  = depth.
Proof.
  induction row as [|x row IH]; simpl.
  - by rewrite length_replicate.
  - rewrite length_zip_with, one_hot_index_length, IH. lia.
Qed.

Lemma count_occ_length (row : list Z) t : (count_occ Z.eq_dec row t <= length row)%nat.
Proof. induction row as [|x row IH]; simpl; [done|]. destruct (Z.eq_dec x t); lia. Qed.





End BagOfWordsFacts.

(** ** Text preprocessing *)

Section PreprocessTextFacts.

Import Chapter13.

Lemma text_shape (X_batch : list bytes) :
  TF.broadcast Z.mul (TF.shape1 X_batch) [1; 0] ≫= (fun s => TF.broadcast Z.add s [0; 50])
  = Some [Z.of_nat (length X_batch); 50].
Proof.
  unfold TF.shape1, TF.broadcast. simpl.
  by rewrite Z.mul_1_r, Z.add_0_r, Z.mul_0_r.
Qed.

Lemma preprocess_text_unfold X_batch n_words :
  preprocess_text X_batch n_words
  = Some (map (fun x => resize 50 pad (words_of x)) X_batch).
Proof.
  unfold preprocess_text. rewrite text_shape. simpl.
  rewrite decide_True by lia. f_equal.
  rewrite !map_map, Nat2Z.id.
  replace (length X_batch) with
    (length (map (fun x => resize (Pos.to_nat 50) pad (words_of x)) X_batch))
    by apply length_map.
  unfold words_of. apply resize_all.
Qed.

(** The shape the notebook prints for its two reviews. *)
Example text_shape_X_example :
  TF.broadcast Z.mul (TF.shape1 X_example) [1; 0] ≫= (fun s => TF.broadcast Z.add s [0; 50])
  = Some [2; 50].
Proof. reflexivity. Qed.

(** C4. The [n_words] argument of [preprocess_text] is never read:
    for a non-empty batch and a positive [n] the result is the one for
    50, a tensor with one row per review and exactly 50 columns, row [i]
    holding the first 50 words of review [i] followed by [b'<pad>']
    entries. *)
Theorem preprocess_text_ignores_n_words (X_batch : list bytes) (n : Z) :
  X_batch <> [] -> 0 < n ->
  preprocess_text X_batch n = preprocess_text X_batch 50 /\
  exists T,
    preprocess_text X_batch n = Some T /\
    length T = length X_batch /\
    Forall (fun row => length row = 50%nat) T /\
    forall i x, X_batch !! i = Some x ->
      T !! i = Some (take 50 (words_of x) ++ replicate (50 - length (words_of x)) pad).
Proof.
  intros _ _. split; [reflexivity|].
  rewrite preprocess_text_unfold. eexists. split; [reflexivity|].
  split; [by rewrite length_map|]. split.
  - apply Forall_fmap, Forall_forall. intros x _. simpl. apply length_resize.
  - intros i x Hx. rewrite list_lookup_fmap, Hx. simpl. by rewrite resize_spec.
Qed.

Lemma preprocess_text_ignores_n_words_witness :
  preprocess_text [b "It was terrible, run away!!!"] 3
  = preprocess_text [b "It was terrible, run away!!!"] 50.
Proof.
  refine (proj1 (preprocess_text_ignores_n_words [b "It was terrible, run away!!!"] 3 _ _)).
  - discriminate.
  - lia.
Defined.

End PreprocessTextFacts.

(** ** The vocabulary *)

Section VocabularyFacts.

Import Chapter13.

Implicit Types (c : Counter) (w k : bytes) (ws : list bytes).

Lemma filter_eq_absent w ws : w ∉ ws -> filter (fun w' => w' = w) ws = [].
Proof.
  induction ws as [|x ws IH]; [done|]. rewrite not_elem_of_cons. intros [Hne Hnin].
  rewrite filter_cons_False by (intros ->; done). by apply IH.
Qed.

Lemma counter_incr_keys w c :
  (counter_incr w c).*1 = if decide (w ∈ c.*1) then c.*1 else c.*1 ++ [w].
Proof.
  induction c as [|[k v] c IH].
  - destruct (decide (w ∈ ([] : Counter).*1)) as [Hin|_]; [|done].
    by apply elem_of_nil in Hin.
  - cbn [counter_incr]. destruct (decide (k = w)) as [->|Hne].
    + destruct (decide (w ∈ ((w, v) :: c).*1)) as [_|Hnin]; [done|].
      exfalso. apply Hnin. apply list_elem_of_here.
    + rewrite fmap_cons, IH. cbn [fst].
      destruct (decide (w ∈ c.*1)) as [Hin|Hnin];
        destruct (decide (w ∈ ((k, v) :: c).*1)) as [Hin'|Hnin']; try done.
      * exfalso. apply Hnin'. rewrite fmap_cons. by apply list_elem_of_further.
      * rewrite fmap_cons in Hin'. apply elem_of_cons in Hin' as [?|?]; done.
Qed.

Lemma counter_incr_elem w c k v :
  NoDup c.*1 ->
  (k, v) ∈ counter_incr w c ->
  (k <> w /\ (k, v) ∈ c) \/
  (k = w /\ ((w, v - 1) ∈ c \/ (v = 1 /\ w ∉ c.*1))).
Proof.
  induction c as [|[k' v'] c IH]; simpl; intros Hnd Hin.
  - apply list_elem_of_singleton in Hin. inversion Hin; subst.
    right. split; [done|]. right. split; [done|]. apply not_elem_of_nil.
  - apply NoDup_cons in Hnd as [Hk' Hnd].
    destruct (decide (k' = w)) as [->|Hne].
    + apply elem_of_cons in Hin as [Heq|Hin].
      * inversion Heq; subst. right. split; [done|]. left.
        replace (v' + 1 - 1) with v' by lia. apply list_elem_of_here.
      * left. split; [|by apply list_elem_of_further].
        intros ->. apply Hk'. apply list_elem_of_fmap. by exists (w, v).
    + apply elem_of_cons in Hin as [Heq|Hin].
      * inversion Heq; subst. left. split; [done|]. apply list_elem_of_here.
      * destruct (IH Hnd Hin) as [[? ?]|[-> [?|[? ?]]]].
        -- left. split; [done|]. by apply list_elem_of_further.
        -- right. split; [done|]. left. by apply list_elem_of_further.
        -- right. split; [done|]. right. split; [done|].
           rewrite elem_of_cons. intros [?|?]; done.
Qed.

Lemma counts_of_incr ws c w :
  counts_of ws c -> counts_of (ws ++ [w]) (counter_incr w c).
Proof.
  intros (Hnd & Hall & Hc). split; [|split].
  - rewrite counter_incr_keys. destruct (decide (w ∈ c.*1)); [done|].
    apply NoDup_app. split; [done|]. split; [|apply NoDup_singleton].
    intros x Hx Hx'. apply list_elem_of_singleton in Hx' as ->. done.
  - intros x. rewrite counter_incr_keys, elem_of_app, list_elem_of_singleton.
    intros [Hx|Heq].
    + apply Hall in Hx. destruct (decide (w ∈ c.*1)); [done|].
      apply elem_of_app. by left.
    + subst x. destruct (decide (w ∈ c.*1)); [done|]. apply elem_of_app. right.
      apply list_elem_of_here.
  - intros k v Hin. rewrite filter_app, length_app, elem_of_app. simpl.
    destruct (counter_incr_elem _ _ _ _ Hnd Hin) as [[Hne Hkv]|[-> Hw]].
    + destruct (Hc _ _ Hkv) as [? ->]. split; [by left|].
      rewrite filter_cons_False by done. simpl. lia.
    + rewrite filter_cons_True by done. simpl.
      split; [right; apply list_elem_of_here|].
      destruct Hw as [Hkv|[-> Hnin]].
      * destruct (Hc _ _ Hkv) as [_ ?]. lia.
      * rewrite filter_eq_absent; [done|]. intros Hw. by apply Hnin, Hall.
Qed.

Lemma counts_of_nil : counts_of [] [].
Proof.
  split; [apply NoDup_nil_2|]. split; [done|].
  intros k v Hin. by apply elem_of_nil in Hin.
Qed.

(** The inner loop, over the words already counted [ws]. *)
Lemma counts_of_loop ws' ws c :
  counts_of ws c ->
  counts_of (ws ++ filter (fun w => w <> pad) ws')
    (foldl (fun counter word =>
              if decide (word <> pad) then counter_incr word counter else counter) c ws').
Proof.
  revert ws c. induction ws' as [|w ws' IH]; intros ws c Hc; simpl.
  - by rewrite filter_nil, app_nil_r.
  - destruct (decide (w <> pad)) as [Hw|Hw].
    + rewrite filter_cons_True by done.
      replace (ws ++ w :: filter (fun w => w <> pad) ws')
        with ((ws ++ [w]) ++ filter (fun w => w <> pad) ws') by by rewrite <- app_assoc.
      apply IH. by apply counts_of_incr.
    + rewrite filter_cons_False by done. by apply IH.
Qed.

Lemma count_words_flat rows c :
  foldl (fun counter words =>
           foldl (fun counter word =>
                    if decide (word <> pad) then counter_incr word counter else counter)
                 counter words) c rows
  = foldl (fun counter word =>
             if decide (word <> pad) then counter_incr word counter else counter)
          c (concat rows).
Proof.
  revert c. induction rows as [|r rows IH]; intros c; simpl; [done|].
  by rewrite foldl_app, IH.
Qed.

Lemma count_words_counts rows :
  counts_of (filter (fun w => w <> pad) (concat rows)) (count_words rows).
Proof.
  unfold count_words. rewrite count_words_flat.
  apply (counts_of_loop (concat rows) [] []), counts_of_nil.
Qed.

(** Filtering the pad entries out does not change the count of a word. *)
Lemma filter_pad_count k ws :
  k <> pad ->
  length (filter (fun w' => w' = k) (filter (fun w => w <> pad) ws))
  = length (filter (fun w' => w' = k) ws).
Proof.
  intros Hk. induction ws as [|w ws IH]; [done|].
  destruct (decide (w = pad)) as [->|Hw].
  - rewrite (filter_cons_False (fun w => w <> pad)) by (intros H; by apply H).
    rewrite (filter_cons_False (fun w' => w' = k)) by (intros H; by apply Hk).
    exact IH.
  - rewrite (filter_cons_True (fun w => w <> pad)) by done.
    destruct (decide (w = k)) as [->|Hne].
    + rewrite !(filter_cons_True (fun w' => w' = k)) by done. simpl. by rewrite IH.
    + rewrite !(filter_cons_False (fun w' => w' = k)) by done. exact IH.
Qed.

(** The sort is a permutation and puts greater counts first. *)
Lemma insert_desc_Permutation x c : insert_desc x c ≡ₚ x :: c.
Proof.
  induction c as [|y c IH]; simpl; [done|].
  destruct (decide (y.2 <= x.2)); [done|]. rewrite IH. apply Permutation_swap.
Qed.

Lemma sorted_desc_Permutation c : sorted_desc c ≡ₚ c.
Proof.
  induction c as [|x c IH]; simpl; [done|].
  rewrite insert_desc_Permutation. by rewrite IH.
Qed.

Lemma insert_desc_sorted x c :
  StronglySorted (fun a a' => a'.2 <= a.2) c ->
  StronglySorted (fun a a' => a'.2 <= a.2) (insert_desc x c).
Proof.
  induction 1 as [|y c Hs IH Hy]; simpl.
  - repeat constructor.
  - destruct (decide (y.2 <= x.2)) as [Hle|Hgt].
    + constructor; [by constructor|]. constructor; [done|].
      eapply Forall_impl; [exact Hy|]. simpl. intros; lia.
    + constructor; [done|].
      rewrite insert_desc_Permutation. constructor; [lia|done].
Qed.

Lemma sorted_desc_sorted c : StronglySorted (fun a a' => a'.2 <= a.2) (sorted_desc c).
Proof.
  induction c as [|x c IH]; simpl; [constructor|]. by apply insert_desc_sorted.
Qed.

Lemma most_common_sorted n c :
  StronglySorted (fun a a' => a'.2 <= a.2) (most_common n c).
Proof.
  unfold most_common. generalize (Z.to_nat n) as m.
  induction (sorted_desc_sorted c) as [|y l Hs IH Hy]; intros [|m]; simpl;
    try constructor; [apply IH|].
  apply Forall_forall. intros a Ha. rewrite Forall_forall in Hy. apply Hy.
  apply elem_of_take in Ha as (i & Hi & _). by eapply list_elem_of_lookup_2.
Qed.

Lemma most_common_sublist n c : sublist (most_common n c) (sorted_desc c).
Proof. apply sublist_take. Qed.

Lemma most_common_elem n c a : a ∈ most_common n c -> a ∈ c.
Proof.
  intros Ha. rewrite <- (sorted_desc_Permutation c).
  eapply elem_of_sublist; [exact Ha | apply most_common_sublist].
Qed.

Lemma most_common_NoDup n c : NoDup c.*1 -> NoDup (most_common n c).*1.
Proof.
  intros Hnd. apply (sublist_NoDup _ (sorted_desc c).*1).
  - by rewrite sorted_desc_Permutation.
  - apply fmap_sublist, most_common_sublist.
Qed.

(** A list of items sorted by count, whose counts are the frequencies
    of their words, has its words sorted by frequency. *)
Lemma sorted_words rows (l : Counter) :
  (forall a, a ∈ l -> a.2 = frequency rows a.1) ->
  StronglySorted (fun a a' => a'.2 <= a.2) l ->
  StronglySorted (fun w w' => frequency rows w' <= frequency rows w) l.*1.
Proof.
  intros Hfreq Hs. induction Hs as [|a l Hs IH Ha]; simpl; constructor.
  - apply IH. intros a' Ha'. apply Hfreq. by apply list_elem_of_further.
  - apply Forall_fmap, Forall_forall. intros a' Ha'. simpl.
    rewrite Forall_forall in Ha. specialize (Ha _ Ha').
    rewrite <- (Hfreq a) by apply list_elem_of_here.
    rewrite <- (Hfreq a') by by apply list_elem_of_further. exact Ha.
Qed.

(** C8. [get_vocabulary] returns a well-formed vocabulary: for every
    sample and every [max_size >= 0] the list starts with [b'<pad>'],
    has at most [max_size + 1] entries, has no duplicate, does not
    list [b'<pad>'] among the counted words, and lists the counted words
    by non-increasing frequency in the preprocessed sample. *)
Theorem get_vocabulary_well_formed (data_sample : list bytes) (max_size : Z) :
  0 <= max_size ->
  exists rows words,
    preprocess_text data_sample 50 = Some rows /\
    get_vocabulary data_sample max_size = Some (pad :: words) /\
    Z.of_nat (length (pad :: words)) <= max_size + 1 /\
    NoDup (pad :: words) /\
    (pad ∉ words) /\
    StronglySorted (fun w w' => frequency rows w' <= frequency rows w) words.
Proof.
  intros Hmax. unfold get_vocabulary.
  destruct (preprocess_text data_sample 50) as [rows|] eqn:Hrows;
    [|by rewrite preprocess_text_unfold in Hrows].
  exists rows, (most_common max_size (count_words rows)).*1.
  destruct (count_words_counts rows) as (Hnd & _ & Hc).
  assert (Hpad : pad ∉ (most_common max_size (count_words rows)).*1).
  { intros ([k v] & Hk & Hin%most_common_elem)%list_elem_of_fmap. simpl in Hk. subst k.
    destruct (Hc _ _ Hin) as [Hin' _].
    apply list_elem_of_filter in Hin' as [Hne _]. by apply Hne. }
  split; [done|]. split; [done|]. split; [|split; [|split; [done|]]].
  - simpl. rewrite length_fmap. unfold most_common. rewrite length_take. lia.
  - apply NoDup_cons. split; [done|]. by apply most_common_NoDup.
  - apply sorted_words; [|apply most_common_sorted].
    intros [k v] Hin%most_common_elem. simpl.
    destruct (Hc _ _ Hin) as [Hin' ->]. unfold frequency. f_equal.
    apply filter_pad_count. apply list_elem_of_filter in Hin' as [Hne _]. done.
Qed.

Lemma get_vocabulary_well_formed_witness :
  exists rows words,
    preprocess_text [b "It's a great, great movie! I loved it."] 50 = Some rows /\
    get_vocabulary [b "It's a great, great movie! I loved it."] 2 = Some (pad :: words) /\
    Z.of_nat (length (pad :: words)) <= 2 + 1 /\
    NoDup (pad :: words) /\
    (pad ∉ words) /\
    StronglySorted (fun w w' => frequency rows w' <= frequency rows w) words.
Proof.
  apply (get_vocabulary_well_formed [b "It's a great, great movie! I loved it."] 2).
  lia.
Defined.

(** The vocabulary of the two reviews of the notebook, and the ids of
    their words: the recorded output of the notebook's cell. *)
Example get_vocabulary_X_example :
  get_vocabulary X_example 1000
  = Some (map b ["<pad>"; "it"; "great"; "s"; "a"; "movie"; "i"; "loved";
                 "was"; "terrible"; "run"; "away"]%string).
Proof. vm_compute. reflexivity. Qed.

Example text_vectorization_X_example :
  (vocab ← get_vocabulary X_example 1000;
   rows ← preprocess_text X_example 50;
   mapM (fun row => mapM (word_id vocab) (take 12 row)) rows)
  = Some [[1; 3; 4; 2; 2; 5; 6; 7; 1; 0; 0; 0]; [1; 8; 9; 10; 11; 0; 0; 0; 0; 0; 0; 0]]%nat.
Proof. vm_compute. reflexivity. Qed.

End VocabularyFacts.

(** ** The wire format *)

Section WireFacts.

Import Proto.

(** Linear arithmetic with the divisions and remainders of [N]. *)
Ltac nlia := zify; Z.to_euclidean_division_equations; lia.

Lemma get_varint_cons fuel c t :
  get_varint (S fuel) (c :: t)
  = if (N_of_ascii c <? 128)%N then Some (N_of_ascii c, t)
    else '(hi, rest) ← get_varint fuel t; Some (N_of_ascii c - 128 + 128 * hi, rest)%N.
Proof. reflexivity. Qed.

Lemma put_varint_S fuel n :
  put_varint (S fuel) n
  = if (n <? 128)%N then [ascii_of_N n]
    else ascii_of_N (128 + n mod 128) :: put_varint fuel (n / 128).
Proof. reflexivity. Qed.

Lemma get_put_varint fuel n rest :
  (n < 128 ^ N.of_nat (S fuel))%N ->
  get_varint (S fuel) (put_varint (S fuel) n ++ rest) = Some (n, rest).
Proof.
  revert n. induction fuel as [|fuel IH]; intros n Hn; rewrite put_varint_S.
  - change (128 ^ N.of_nat 1)%N with 128%N in Hn.
    destruct (N.ltb_spec n 128) as [Hlt|]; [|lia].
    cbn [app]. rewrite get_varint_cons, N_ascii_embedding by lia.
    destruct (N.ltb_spec n 128); [done|lia].
  - destruct (N.ltb_spec n 128) as [Hlt|Hge]; cbn [app]; rewrite get_varint_cons.
    + rewrite N_ascii_embedding by lia.
      destruct (N.ltb_spec n 128); [done|lia].
    + rewrite N_ascii_embedding by nlia.
      destruct (N.ltb_spec (128 + n mod 128) 128); [nlia|].
      rewrite IH.
      * simpl. do 2 f_equal. nlia.
      * replace (N.of_nat (S (S fuel))) with (N.succ (N.of_nat (S fuel))) in Hn by lia.
        rewrite N.pow_succ_r' in Hn. nlia.
Qed.

Lemma decode_encode_varint n rest :
  (n < 2 ^ 64)%N -> decode_varint (encode_varint n ++ rest) = Some (n, rest).
Proof.
  intros Hn. unfold decode_varint, encode_varint.
  rewrite N.mod_small by done. rewrite get_put_varint.
  - simpl. by rewrite N.mod_small.
  - change (128 ^ N.of_nat 10)%N with (2 ^ 70)%N.
    assert (2 ^ 64 < 2 ^ 70)%N by done. lia.
Qed.

Lemma put_varint_length fuel m : (1 <= length (put_varint (S fuel) m) <= S fuel)%nat.
Proof.
  revert m. induction fuel as [|fuel IH]; intros m; rewrite put_varint_S.
  - destruct (m <? 128)%N; simpl; lia.
  - destruct (m <? 128)%N; [simpl; lia|]. cbn [length].
    specialize (IH (m / 128)%N). lia.
Qed.

Lemma encode_varint_length n : (1 <= length (encode_varint n) <= 10)%nat.
Proof. apply put_varint_length. Qed.

Lemma split_at_app (p rest : bytes) : split_at (length p) (p ++ rest) = Some (p, rest).
Proof.
  unfold split_at. rewrite decide_True by (rewrite length_app; lia).
  by rewrite take_app_length, drop_app_length.
Qed.

(** The payload a field was written with is read back, and so is the
    field. *)
Lemma decode_encode_field f rest fuel :
  wf_field f ->
  decode_fields (S fuel) (encode_field f ++ rest)
  = fs ← decode_fields fuel rest; Some (f :: fs).
Proof.
  destruct f as [k w]. intros [Hk Hw]. simpl in Hk, Hw.
  unfold encode_field. cbn [fst snd]. rewrite <- app_assoc.
  assert (Htag : (k * 8 + wire_type w < 2 ^ 64)%N).
  { assert (2 ^ 29 * 8 + 8 < 2 ^ 64)%N by done. destruct w; simpl; lia. }
  destruct (encode_varint (k * 8 + wire_type w) ++ _) as [|c s] eqn:Hs.
  { pose proof (encode_varint_length (k * 8 + wire_type w)).
    apply (f_equal length) in Hs. rewrite length_app in Hs. simpl in Hs. lia. }
  cbn [decode_fields]. rewrite <- Hs, decode_encode_varint by done.
  cbn [mbind option_bind].
  replace ((k * 8 + wire_type w) / 8)%N with k by (destruct w; simpl; nlia).
  replace ((k * 8 + wire_type w) mod 8)%N with (wire_type w) by (destruct w; simpl; nlia).
  destruct (N.eqb_spec k 0) as [->|_]; [lia|].
  assert (Hp : decode_payload (wire_type w)
                 (match w with
                  | WVarint n => encode_varint n
                  | WI64 p => p
                  | WLen p => encode_varint (N.of_nat (length p)) ++ p
                  | WI32 p => p
                  end ++ rest) = Some (w, rest)).
  { destruct w as [n|p|p|p]; simpl.
    - by rewrite decode_encode_varint.
    - rewrite <- Hw. by rewrite split_at_app.
    - rewrite <- app_assoc, decode_encode_varint by done. simpl.
      rewrite Nat2N.id. by rewrite split_at_app.
    - rewrite <- Hw. by rewrite split_at_app. }
  rewrite Hp. reflexivity.
Qed.

Lemma encode_field_length f : (1 <= length (encode_field f))%nat.
Proof.
  unfold encode_field. rewrite length_app.
  pose proof (encode_varint_length (f.1 * 8 + wire_type f.2)). lia.
Qed.

Lemma decode_fields_encode fs fuel :
  Forall wf_field fs ->
  (length (encode_message fs) <= fuel)%nat ->
  decode_fields fuel (encode_message fs) = Some fs.
Proof.
  intros Hwf. revert fuel. induction Hwf as [|f fs Hf Hfs IH]; intros fuel Hfuel.
  - by destruct fuel.
  - unfold encode_message in *. cbn [map concat] in *. rewrite length_app in Hfuel.
    pose proof (encode_field_length f).
    destruct fuel as [|fuel]; [lia|].
    rewrite decode_encode_field by done. rewrite IH by lia. reflexivity.
Qed.

Lemma encode_message_size fs : (length (encode_message fs) <= size_bound fs)%nat.
Proof.
  induction fs as [|[k w] fs IH]; [done|].
  unfold encode_message in *. cbn [map concat size_bound snd].
  rewrite length_app. unfold encode_field at 1. cbn [fst snd]. rewrite length_app.
  destruct w as [n|q|q|q]; cbn [payload_length wire_type]; rewrite ?length_app.
  - pose proof (encode_varint_length (k * 8 + 0)).
    pose proof (encode_varint_length n). lia.
  - pose proof (encode_varint_length (k * 8 + 1)). lia.
  - pose proof (encode_varint_length (k * 8 + 2)).
    pose proof (encode_varint_length (N.of_nat (length q))). lia.
  - pose proof (encode_varint_length (k * 8 + 5)). lia.
Qed.

(** Reading back what was written. *)
Lemma decode_encode_message fs :
  Forall wf_field fs -> decode_message (encode_message fs) = Some fs.
Proof. intros Hwf. by apply decode_fields_encode. Qed.

End WireFacts.

(** ** Serialized tensors *)

Section TensorFacts.

Import Proto.

Lemma dtype_of_code_code d : TF.dtype_of_code (TF.dtype_code d) = Some d.
Proof. by destruct d. Qed.

Lemma decode_encode_dim d :
  (d < 2 ^ 64)%N ->
  TF.decode_dim (TF.encode_dim d) = Some d /\ (length (TF.encode_dim d) <= 20)%nat.
Proof.
  intros Hd. unfold TF.decode_dim, TF.encode_dim.
  destruct (decide (d = 0%N)) as [->|Hne].
  - split; [reflexivity|]. simpl; lia.
  - split.
    + rewrite decode_encode_message by (repeat constructor; simpl; lia). reflexivity.
    + unfold encode_message. cbn [map concat].
      rewrite app_nil_r. unfold encode_field. cbn [fst snd]. rewrite length_app.
      pose proof (encode_varint_length (1 * 8 + wire_type (WVarint d))).
      pose proof (encode_varint_length d). lia.
Qed.

Lemma decode_encode_shape dims :
  Forall (fun d => d < 2 ^ 64)%N dims ->
  TF.decode_shape (TF.encode_shape dims) = Some dims.
Proof.
  intros Hdims. unfold TF.decode_shape, TF.encode_shape.
  rewrite decode_encode_message.
  - cbn [mbind option_bind]. induction Hdims as [|d dims Hd _ IH]; [reflexivity|].
    cbn [map len_fields omap list_omap fst snd].
    rewrite decide_True by done.
    fold (len_fields 2 (map (fun d => (2%N, WLen (TF.encode_dim d))) dims)).
    cbn [mapM]. destruct (decode_encode_dim d Hd) as [-> _].
    cbn [mbind option_bind]. rewrite IH. reflexivity.
  - apply Forall_fmap. eapply Forall_impl; [exact Hdims|].
    intros d Hd. destruct (decode_encode_dim d Hd) as [_ Hlen].
    split; simpl; lia.
Qed.

(** Parsing a serialized tensor gives the tensor back when it is asked
    for with its own element type, and fails when asked for with
    another. *)
Lemma parse_serialize_tensor_type t out_type :
  TF.tensor_ok t -> TF.tensor_fits t ->
  TF.parse_tensor (TF.serialize_tensor t) out_type
  = if decide (TF.dtype t = out_type) then Some t else None.
Proof.
  intros (sz & Hsz & Hlen) (Hdims & Hshape & Hcontent).
  unfold TF.parse_tensor, TF.serialize_tensor.
  rewrite decode_encode_message.
  2:{ apply Forall_app. split.
      - repeat constructor; simpl; try lia. destruct (TF.dtype t); simpl; lia.
      - destruct (TF.tensor_content t) eqn:Hc; [constructor|].
        repeat constructor; simpl in *; lia. }
  cbn [mbind option_bind].
  assert (Hd : varint_field 1
            ([(1%N, WVarint (TF.dtype_code (TF.dtype t)));
              (2%N, WLen (TF.encode_shape (TF.shape t)))] ++
             match TF.tensor_content t with [] => [] | c => [(4%N, WLen c)] end)
          = Some (TF.dtype_code (TF.dtype t))).
  { by destruct (TF.tensor_content t). }
  assert (Hs : message_field 2
            ([(1%N, WVarint (TF.dtype_code (TF.dtype t)));
              (2%N, WLen (TF.encode_shape (TF.shape t)))] ++
             match TF.tensor_content t with [] => [] | c => [(4%N, WLen c)] end)
          = Some (TF.encode_shape (TF.shape t))).
  { destruct (TF.tensor_content t); unfold message_field; simpl; by rewrite app_nil_r. }
  assert (Hc : default [] (bytes_field 4
            ([(1%N, WVarint (TF.dtype_code (TF.dtype t)));
              (2%N, WLen (TF.encode_shape (TF.shape t)))] ++
             match TF.tensor_content t with [] => [] | c => [(4%N, WLen c)] end))
          = TF.tensor_content t).
  { by destruct (TF.tensor_content t). }
  rewrite Hd, Hs, Hc. cbn [default id]. rewrite dtype_of_code_code. cbn [mbind option_bind].
  rewrite decode_encode_shape by done. cbn [mbind option_bind]. rewrite Hsz.
  cbn [mbind option_bind]. destruct (decide (TF.dtype t = out_type)) as [Heq|Hne].
  - rewrite decide_True by done. by destruct t.
  - rewrite decide_False by tauto. done.
Qed.

Lemma parse_serialize_tensor t :
  TF.tensor_ok t -> TF.tensor_fits t ->
  TF.parse_tensor (TF.serialize_tensor t) (TF.dtype t) = Some t.
Proof.
  intros Hok Hfits. rewrite parse_serialize_tensor_type by done.
  by rewrite decide_True.
Qed.

Lemma encode_shape_size dims :
  Forall (fun d => d < 2 ^ 64)%N dims ->
  (length (TF.encode_shape dims) <= 40 * length dims)%nat.
Proof.
  intros Hdims. unfold TF.encode_shape. etrans; [apply encode_message_size|].
  induction Hdims as [|d dims Hd _ IH]; [done|].
  destruct (decode_encode_dim d Hd) as [_ Hlen].
  cbn [map size_bound payload_length snd length]. lia.
Qed.


Lemma serialize_tensor_size t :
  (length (TF.serialize_tensor t)
   <= 60 + length (TF.encode_shape (TF.shape t)) + length (TF.tensor_content t))%nat.
Proof.
  unfold TF.serialize_tensor. etrans; [apply encode_message_size|].
  destruct (TF.tensor_content t); simpl; lia.
Qed.

End TensorFacts.

(** ** Serialized examples *)

Section ExampleFacts.

Import Proto Chapter13.

Lemma to_of_int64 z : is_int64 z -> to_int64 (of_int64 z) = z.
Proof.
  unfold is_int64, to_int64, of_int64. intros Hz.
  assert (H63 : (2 ^ 63)%N = Z.to_N (2 ^ 63)) by done.
  destruct (N.ltb_spec (Z.to_N (z mod 2 ^ 64)) (2 ^ 63)) as [Hlt|Hge];
    rewrite H63 in *; rewrite Z2N.id by (apply Z.mod_pos_bound; done).
  - apply Z2N.inj_lt in Hlt; [|apply Z.mod_pos_bound; done|done].
    destruct (Z.le_gt_cases 0 z); [apply Z.mod_small; lia|].
    rewrite <- (Z.mod_add z 1) in Hlt by done. rewrite Z.mod_small in Hlt; lia.
  - apply Z2N.inj_le in Hge; [|done|apply Z.mod_pos_bound; done].
    destruct (Z.le_gt_cases 0 z); [rewrite Z.mod_small in Hge; lia|].
    rewrite <- (Z.mod_add z 1) by done. rewrite Z.mod_small; lia.
Qed.

Lemma of_int64_bound z : (of_int64 z < 2 ^ 64)%N.
Proof.
  unfold of_int64. assert (H64 : (2 ^ 64)%N = Z.to_N (2 ^ 64)) by done.
  rewrite H64. apply Z2N.inj_lt; [apply Z.mod_pos_bound; done|done|].
  apply Z.mod_pos_bound. done.
Qed.

Lemma unpack_one_varint n :
  (n < 2 ^ 64)%N ->
  TF.unpack_varints (length (encode_varint n)) (encode_varint n) = Some [n].
Proof.
  intros Hn. pose proof (encode_varint_length n) as Hlen.
  pose proof (decode_encode_varint n [] Hn) as Hdec. rewrite app_nil_r in Hdec.
  destruct (encode_varint n) as [|c q] eqn:Hq; [simpl in Hlen; lia|].
  cbn [length TF.unpack_varints]. rewrite Hdec. cbn [mbind option_bind].
  by destruct (length q).
Qed.

(** The two features of [create_example] are read back. *)
Lemma decode_bytes_feature v :
  (N.of_nat (length v) + 100 < 2 ^ 64)%N ->
  TF.decode_feature (encode_message (TF.encode_feature (TF.BytesList [v])))
  = Some (TF.BytesList [v]).
Proof.
  intros Hv. unfold TF.decode_feature, TF.encode_feature.
  rewrite decode_encode_message.
  2:{ repeat constructor; cbn [fst snd]; [lia|].
      pose proof (encode_message_size [(1%N, WLen v)]). simpl in *. lia. }
  cbn [mbind option_bind TF.oneof_kind foldl fst snd].
  rewrite !decide_True by (auto; done). cbn [app].
  rewrite decode_encode_message by (repeat constructor; simpl; lia).
  reflexivity.
Qed.

Lemma decode_int64_feature z :
  is_int64 z ->
  TF.decode_feature (encode_message (TF.encode_feature (TF.Int64List [z])))
  = Some (TF.Int64List [z]).
Proof.
  intros Hz. unfold TF.decode_feature, TF.encode_feature.
  pose proof (encode_varint_length (of_int64 z)) as Hlen.
  cbn [map concat]. rewrite app_nil_r.
  rewrite decode_encode_message.
  2:{ repeat constructor; cbn [fst snd]; [lia|].
      pose proof (encode_message_size [(1%N, WLen (encode_varint (of_int64 z)))]).
      simpl in *. lia. }
  cbn [mbind option_bind TF.oneof_kind foldl fst snd].
  rewrite decide_True by auto. rewrite !decide_False by done.
  unfold TF.decode_int64s.
  rewrite decode_encode_message by (repeat constructor; simpl; lia).
  cbn [mbind option_bind mapM fst snd]. rewrite decide_True by done.
  rewrite unpack_one_varint by apply of_int64_bound.
  cbn [fmap option_fmap option_map map mbind option_bind mret option_ret concat app].
  by rewrite to_of_int64.
Qed.

Lemma decode_encode_entry k f :
  (length (list_ascii_of_string k) <= 1000)%nat ->
  (N.of_nat (length (encode_message (TF.encode_feature f))) + 2000 < 2 ^ 64)%N ->
  TF.decode_feature (encode_message (TF.encode_feature f)) = Some f ->
  wf_field (TF.encode_entry (k, f)) /\
  match (TF.encode_entry (k, f)).2 with
  | WLen p => TF.decode_entry p = Some (k, f)
  | _ => False
  end.
Proof.
  intros Hk Hf Hdec. unfold TF.encode_entry. cbn [fst snd].
  pose proof (encode_message_size
                [(1%N, WLen (list_ascii_of_string k));
                 (2%N, WLen (encode_message (TF.encode_feature f)))]) as Hsize.
  cbn [size_bound payload_length snd] in Hsize.
  split; [split; cbn [fst snd]; lia|].
  unfold TF.decode_entry.
  rewrite decode_encode_message by (repeat constructor; cbn [fst snd]; lia).
  cbn [mbind option_bind]. unfold message_field, bytes_field.
  cbn [len_fields omap list_omap fst snd].
  decide_numbers.
  cbn [default concat last id mbind option_bind]. rewrite app_nil_r, Hdec.
  cbn [mbind option_bind]. by rewrite string_of_list_ascii_of_string.
Qed.

Lemma image_data_size image :
  is_image image -> (length (TF.serialize_tensor image) <= 1000)%nat.
Proof.
  intros (_ & Hshape & Hlen). pose proof (serialize_tensor_size image) as Hsize.
  rewrite Hshape, Hlen in Hsize. etrans; [exact Hsize|].
  replace (length (TF.encode_shape [28%N; 28%N])) with 8%nat by (vm_compute; reflexivity).
  lia.
Qed.

Lemma image_tensor_ok image : is_image image -> TF.tensor_ok image /\ TF.tensor_fits image.
Proof.
  intros (Hd & Hshape & Hlen). split.
  - exists 1%nat. rewrite Hd, Hshape, Hlen. done.
  - unfold TF.tensor_fits. rewrite Hshape, Hlen. split; [|done].
    repeat constructor.
Qed.

(** An example of [create_example] is parsed back from its serialized
    form. *)
Lemma parse_serialized_example_sized image label :
  (N.of_nat (length (TF.serialize_tensor image)) < 2 ^ 32)%N -> is_int64 label ->
  TF.ParseFromString (TF.SerializeToString (create_example image label))
  = Some (create_example image label).
Proof.
  intros Hsize Hlabel.
  unfold TF.SerializeToString, create_example. cbn [TF.features TF.feature].
  set (image_data := TF.serialize_tensor image) in *.
  assert (Hlist : map_to_list
            (<["image"%string := TF.BytesList [image_data]]>
               (<["label"%string := TF.Int64List [label]]> (∅ : gmap string TF.Feature)))
          = [("image"%string, TF.BytesList [image_data]);
             ("label"%string, TF.Int64List [label])]).
  { clearbody image_data. vm_compute. reflexivity. }
  rewrite Hlist. cbn [map].
  pose proof (encode_message_size (TF.encode_feature (TF.BytesList [image_data]))) as Hs1.
  pose proof (encode_message_size (TF.encode_feature (TF.Int64List [label]))) as Hs2.
  pose proof (encode_varint_length (of_int64 label)) as Hs3.
  pose proof (encode_message_size [(1%N, WLen image_data)]) as Hs4.
  pose proof (encode_message_size [(1%N, WLen (encode_varint (of_int64 label)))]) as Hs5.
  cbn [TF.encode_feature size_bound payload_length snd map concat] in Hs1, Hs2, Hs4, Hs5.
  rewrite app_nil_r in Hs2.
  destruct (decode_encode_entry "image" (TF.BytesList [image_data])) as [Hwf1 Hdec1];
    [simpl; lia| cbn [TF.encode_feature map]; lia | apply decode_bytes_feature; lia |].
  destruct (decode_encode_entry "label" (TF.Int64List [label])) as [Hwf2 Hdec2];
    [simpl; lia
    | cbn [TF.encode_feature map concat]; rewrite app_nil_r; lia
    | by apply decode_int64_feature |].
  set (e1 := TF.encode_entry ("image"%string, TF.BytesList [image_data])) in *.
  set (e2 := TF.encode_entry ("label"%string, TF.Int64List [label])) in *.
  assert (He1 : exists p1, e1 = (1%N, WLen p1) /\ (length p1 <= 200 + length image_data)%nat).
  { eexists. split; [reflexivity|]. etrans; [apply encode_message_size|].
    cbn [size_bound payload_length snd TF.encode_feature map]. simpl length at 1. lia. }
  assert (He2 : exists p2, e2 = (1%N, WLen p2) /\ (length p2 <= 200)%nat).
  { eexists. split; [reflexivity|]. etrans; [apply encode_message_size|].
    cbn [size_bound payload_length snd TF.encode_feature map concat].
    rewrite app_nil_r. simpl length at 1. lia. }
  destruct He1 as (p1 & He1 & Hp1), He2 as (p2 & He2 & Hp2).
  clearbody e1 e2. subst e1 e2. cbn [snd] in Hdec1, Hdec2.
  pose proof (encode_message_size [(1%N, WLen p1); (1%N, WLen p2)]) as Hs6.
  cbn [size_bound payload_length snd] in Hs6.
  unfold TF.ParseFromString, field in *.
  rewrite decode_encode_message by (repeat constructor; cbn [fst snd]; lia).
  cbn [mbind option_bind]. unfold message_field.
  cbn [len_fields omap list_omap fst snd]. rewrite decide_True by done.
  cbn [default concat id]. rewrite app_nil_r.
  rewrite decode_encode_message by (repeat constructor; cbn [fst snd]; lia).
  cbn [mbind option_bind len_fields omap list_omap fst snd].
  rewrite !decide_True by done. cbn [mapM]. rewrite Hdec1, Hdec2.
  cbn [mbind option_bind mret option_ret].
  clearbody image_data. by do 3 f_equal.
Qed.

Lemma parse_serialized_example image label :
  is_image image -> is_int64 label ->
  TF.ParseFromString (TF.SerializeToString (create_example image label))
  = Some (create_example image label).
Proof.
  intros Himg Hlabel. pose proof (image_data_size image Himg) as Hsize.
  apply parse_serialized_example_sized; [lia|done].
Qed.

(** What [preprocess] does with a record that parses as the example
    [e]: it reads the two features, with their defaults, and then the
    image bytes. *)
Lemma preprocess_parsed tfrecord e :
  TF.ParseFromString tfrecord = Some e ->
  preprocess tfrecord
  = vi ← TF.parse_dense e "image"
           {| TF.fl_dtype := TF.DT_STRING; TF.fl_default := Some (TF.StringVal []) |};
    vl ← TF.parse_dense e "label"
           {| TF.fl_dtype := TF.DT_INT64; TF.fl_default := Some (TF.Int64Val (-1)) |};
    image_bytes ← match vi with TF.StringVal s => Some s | _ => None end;
    image ← TF.parse_tensor image_bytes TF.DT_UINT8;
    reshaped ← TF.reshape image [28%N; 28%N];
    label ← match vl with TF.Int64Val z => Some z | _ => None end;
    Some (reshaped, label).
Proof.
  intros He. unfold preprocess, TF.parse_single_example. rewrite He.
  cbn [mbind option_bind mapM fst snd].
  destruct (TF.parse_dense e "image" _) as [vi|]; [|reflexivity].
  cbn [mbind option_bind].
  destruct (TF.parse_dense e "label" _) as [vl|]; [|reflexivity].
  cbn [mbind option_bind mret option_ret].
  replace ((list_to_map [("image"%string, vi); ("label"%string, vl)] : gmap string TF.value)
             !! "image"%string) with (Some vi) by (vm_compute; reflexivity).
  replace ((list_to_map [("image"%string, vi); ("label"%string, vl)] : gmap string TF.value)
             !! "label"%string) with (Some vl) by (vm_compute; reflexivity).
  reflexivity.
Qed.

Lemma parse_image image :
  is_image image ->
  TF.parse_tensor (TF.serialize_tensor image) TF.DT_UINT8 ≫=
    (fun t => TF.reshape t [28%N; 28%N]) = Some image.
Proof.
  intros Himg. destruct (image_tensor_ok image Himg) as [Hok Hfits].
  destruct Himg as (Hd & Hshape & Hlen).
  rewrite <- Hd, parse_serialize_tensor by done. cbn [mbind option_bind].
  unfold TF.reshape. rewrite Hshape, decide_True by done.
  destruct image; simpl in *; by subst.
Qed.

(** The record of an image and a label is read back as they were. *)
Lemma preprocess_create_example image label :
  is_image image -> is_int64 label ->
  preprocess (TF.SerializeToString (create_example image label)) = Some (image, label).
Proof.
  intros Himg Hlabel.
  rewrite (preprocess_parsed _ _ (parse_serialized_example image label Himg Hlabel)).
  unfold TF.parse_dense, create_example. cbn [TF.features TF.feature TF.fl_dtype].
  rewrite lookup_insert_eq, lookup_insert_ne, lookup_insert_eq by done.
  cbn [mbind option_bind].
  pose proof (parse_image image Himg) as Hparse.
  destruct (TF.parse_tensor _ _) as [t|]; [|done]. cbn [mbind option_bind] in *.
  by rewrite Hparse.
Qed.

(** A record without label: the default label comes back. *)
Lemma preprocess_label_missing tfrecord e image :
  TF.ParseFromString tfrecord = Some e ->
  TF.feature (TF.features e) !! "label"%string = None ->
  TF.feature (TF.features e) !! "image"%string
    = Some (TF.BytesList [TF.serialize_tensor image]) ->
  is_image image ->
  preprocess tfrecord = Some (image, -1).
Proof.
  intros He Hlabel Himage Himg. rewrite (preprocess_parsed _ _ He).
  unfold TF.parse_dense. rewrite Hlabel, Himage.
  cbn [TF.fl_dtype TF.fl_default mbind option_bind].
  pose proof (parse_image image Himg) as Hparse.
  destruct (TF.parse_tensor _ _) as [t|]; [|done]. cbn [mbind option_bind] in *.
  by rewrite Hparse.
Qed.

(** A record without image: the default empty string is no tensor. *)
Lemma preprocess_image_missing tfrecord e :
  TF.ParseFromString tfrecord = Some e ->
  TF.feature (TF.features e) !! "image"%string = None ->
  preprocess tfrecord = None.
Proof.
  intros He Himage. rewrite (preprocess_parsed _ _ He).
  set (vl := TF.parse_dense e "label" _).
  unfold TF.parse_dense. rewrite Himage.
  cbn [TF.fl_default mbind option_bind].
  by destruct vl.
Qed.

End ExampleFacts.

(** ** The TFRecord files of [save_tfrecords] *)

Section SaveFacts.

Import Chapter13.

Lemma string_length_app (s1 s2 : string) :
  String.length (s1 ++ s2) = (String.length s1 + String.length s2)%nat.
Proof. induction s1 as [|c s1 IH]; simpl; [done|]. by rewrite IH. Qed.

Lemma string_app_inj_r (s1 s2 t : string) : (s1 ++ t = s2 ++ t)%string -> s1 = s2.
Proof.
  intros Heq. assert (Hlen : String.length s1 = String.length s2).
  { apply (f_equal String.length) in Heq. rewrite !string_length_app in Heq. lia. }
  revert s2 Heq Hlen. induction s1 as [|c s1 IH]; intros [|c2 s2] Heq Hlen;
    simpl in *; try done.
  change (String c (s1 +:+ t) = String c2 (s2 +:+ t)) in Heq.
  injection Heq as Hc Ht. subst c2. f_equal. apply IH; [done|lia].
Qed.

(** The two digits (or more) of an index spell the index. *)
Lemma format_02d_read idx :
  N.of_uint <$> NilEmpty.uint_of_string (format_02d idx) = Some idx.
Proof.
  unfold format_02d.
  assert (Hd : NilEmpty.uint_of_string (NilZero.string_of_uint (N.to_uint idx))
               = Some (N.to_uint idx)).
  { pose proof (NilZero.usu (N.to_uint idx)) as Husu.
    unfold NilZero.uint_of_string, NilZero.string_of_uint in *.
    destruct (N.to_uint idx) eqn:Hu;
      try (apply NilEmpty.usu).
    destruct idx as [|q]; [done|]. simpl in Hu. unfold Pos.to_uint in Hu.
    by destruct (Decimal.rev (Pos.to_little_uint q)) eqn:Hrev;
      pose proof (DecimalPos.Unsigned.to_uint_nonnil q) as Hnn;
      unfold Pos.to_uint in Hnn; rewrite Hrev in Hnn. }
  destruct (decide _).
  - change ("0" +:+ NilZero.string_of_uint (N.to_uint idx))
      with (String "0" (NilZero.string_of_uint (N.to_uint idx))).
    cbn [NilEmpty.uint_of_string]. rewrite Hd. simpl.
    f_equal. apply DecimalN.Unsigned.of_to.
  - rewrite Hd. simpl. f_equal. apply DecimalN.Unsigned.of_to.
Qed.

Lemma filepath_inj name : Inj (=) (=) (filepath name).
Proof.
  intros i j Heq. unfold filepath in Heq.
  apply String.app_inj in Heq. apply (String.app_inj "_") in Heq.
  apply string_app_inj_r in Heq.
  pose proof (format_02d_read i) as Hi. rewrite Heq, format_02d_read in Hi. congruence.
Qed.

Lemma open_writers_lookup (paths : list string) (fs : TF.files) p :
  foldl (fun fs path => TF.TFRecordWriter path fs) fs paths !! p
  = if decide (p ∈ paths) then Some [] else fs !! p.
Proof.
  revert fs. induction paths as [|x paths IH]; intros fs; cbn [foldl].
  - destruct (decide (p ∈ [])) as [Hin|_]; [by apply elem_of_nil in Hin|done].
  - rewrite IH. unfold TF.TFRecordWriter.
    destruct (decide (p ∈ paths)) as [Hin|Hnin].
    + rewrite decide_True by (by apply list_elem_of_further). done.
    + destruct (decide (p = x)) as [->|Hne].
      * rewrite lookup_insert_eq, decide_True by apply list_elem_of_here. done.
      * rewrite lookup_insert_ne by done. rewrite decide_False; [done|].
        rewrite elem_of_cons. intros [?|?]; done.
Qed.

Lemma shard_snoc {A} n j (data : list A) x :
  shard n j (data ++ [x])
  = shard n j data ++ (if decide (length data mod n = j)%nat then [x] else []).
Proof.
  unfold shard. rewrite imap_app, filter_app, fmap_app. f_equal.
  cbn [imap]. rewrite Nat.add_0_r.
  destruct (decide (length data mod n = j)%nat) as [Hj|Hj].
  - by rewrite filter_cons_True.
  - by rewrite filter_cons_False.
Qed.

(** Shard [j] holds, at position [i], the item of position
    [j + i * n]. *)
Lemma shard_lookup {A} n j (data : list A) i :
  (j < n)%nat -> shard n j data !! i = data !! (j + i * n)%nat.
Proof.
  intros Hj. revert i. induction data as [|x data IH] using rev_ind; intros i.
  - unfold shard. simpl. by rewrite !lookup_nil.
  - rewrite shard_snoc. remember (length (shard n j data)) as c eqn:Hcdef.
    remember (length data) as L eqn:HLdef.
    assert (Hc : (L <= j + c * n)%nat).
    { subst L. apply lookup_ge_None. rewrite <- IH. apply lookup_ge_None. lia. }
    assert (Hprev : forall i', (i' < c)%nat -> (j + i' * n < L)%nat).
    { intros i' Hi'. subst L. apply lookup_lt_is_Some. rewrite <- IH.
      apply lookup_lt_is_Some. lia. }
    assert (Hmod : forall i', ((j + i' * n) mod n = j)%nat).
    { intros i'. rewrite Nat.Div0.mod_add. by apply Nat.mod_small. }
    destruct (decide (L mod n = j)%nat) as [Hdata|Hdata].
    + assert (HL : L = (j + c * n)%nat).
      { pose proof (Nat.div_mod_eq L n) as Hdiv. rewrite Hdata in Hdiv.
        assert (Hq : (L / n <= c)%nat).
        { apply (Nat.mul_le_mono_pos_l _ _ n); lia. }
        destruct c as [|c'].
        - assert (L / n = 0)%nat as Hz by lia. rewrite Hz in Hdiv. lia.
        - specialize (Hprev c' ltac:(lia)).
          assert (Hq' : (c' < L / n)%nat).
          { apply (Nat.mul_lt_mono_pos_l n); lia. }
          assert (L / n = S c')%nat as Hz by lia. rewrite Hz in Hdiv. lia. }
      destruct (lt_eq_lt_dec i c) as [[Hlt|Heq]|Hgt].
      * rewrite !lookup_app_l by (rewrite <- ?HLdef, <- ?Hcdef; try apply Hprev; lia).
        apply IH.
      * subst i. rewrite !lookup_app_r by (rewrite <- ?HLdef, <- ?Hcdef; lia).
        rewrite <- Hcdef, <- HLdef, Nat.sub_diag.
        replace (j + c * n - L)%nat with 0%nat by lia. reflexivity.
      * rewrite !(proj2 (lookup_ge_None _ _)); [done| |];
          rewrite length_app, <- ?HLdef, <- ?Hcdef; simpl; nia.
    + rewrite app_nil_r. destruct (le_lt_dec c i) as [Hge|Hlt].
      * rewrite !(proj2 (lookup_ge_None _ _)); [done| |lia].
        rewrite length_app, <- HLdef. simpl.
        assert (L <> j + i * n)%nat by (intros Heq; rewrite Heq, Hmod in Hdata; done).
        nia.
      * rewrite lookup_app_l by (rewrite <- HLdef; by apply Hprev). apply IH.
Qed.

Lemma range_lookup n j :
  (j < n)%nat -> range (Z.of_nat n) !! j = Some (N.of_nat j).
Proof.
  intros Hj. unfold range. rewrite Nat2Z.id, list_lookup_fmap, lookup_seq_lt by done.
  reflexivity.
Qed.

Lemma filepath_elem name n p :
  p ∈ map (filepath name) (range (Z.of_nat n))
  <-> exists j, (j < n)%nat /\ p = filepath name (N.of_nat j).
Proof.
  unfold range. rewrite Nat2Z.id, list_elem_of_fmap. split.
  - intros (i & -> & (j & -> & Hj%elem_of_seq)%list_elem_of_fmap).
    exists j. split; [lia|done].
  - intros (j & Hj & ->). eexists. split; [reflexivity|].
    apply list_elem_of_fmap. exists j. split; [done|]. apply elem_of_seq. lia.
Qed.

(** The loop, from files in which the writers were opened. *)
Lemma save_loop name n data (fs0 : TF.files) :
  (0 < n)%nat ->
  (forall j, (j < n)%nat -> fs0 !! filepath name (N.of_nat j) = Some []) ->
  exists fs' : TF.files,
    foldl (save_item (map (filepath name) (range (Z.of_nat n))) (Z.of_nat n)) (Some fs0)
          (imap (fun idx x => (idx, x)) data) = Some fs' /\
    (forall j, (j < n)%nat ->
       fs' !! filepath name (N.of_nat j) = Some (record_of <$> shard n j data)) /\
    (forall p, p ∉ map (filepath name) (range (Z.of_nat n)) -> fs' !! p = fs0 !! p).
Proof.
  intros Hn Hopen. induction data as [|item data IH] using rev_ind.
  - exists fs0. split; [done|]. split; [|done]. intros j Hj. by rewrite Hopen.
  - destruct IH as (fs1 & Hloop & Hfiles & Hframe).
    rewrite imap_app, foldl_app, Hloop. cbn [imap foldl]. rewrite Nat.add_0_r.
    destruct item as [image label]. unfold save_item at 1. cbn [mbind option_bind].
    rewrite decide_False by lia.
    assert (Hmod : Z.of_nat (length data) mod Z.of_nat n
                   = Z.of_nat (length data mod n)) by (by rewrite Nat2Z.inj_mod).
    assert (Hlt : (length data mod n < n)%nat) by (apply Nat.mod_upper_bound; lia).
    unfold list_index. rewrite Hmod, decide_True by lia. rewrite Nat2Z.id.
    rewrite list_lookup_fmap, range_lookup by done. cbn [fmap option_fmap option_map].
    cbn [mbind option_bind].
    eexists. split; [reflexivity|]. split.
    + intros j Hj. rewrite shard_snoc, fmap_app. unfold TF.write.
      destruct (decide (length data mod n = j)%nat) as [<-|Hne].
      * rewrite lookup_alter_eq, Hfiles by done. reflexivity.
      * rewrite lookup_alter_ne by (intros Heq%filepath_inj; lia).
        rewrite Hfiles by done. by rewrite app_nil_r.
    + intros p Hp. unfold TF.write. rewrite lookup_alter_ne; [by apply Hframe|].
      intros <-. apply Hp. apply filepath_elem. by exists (length data mod n)%nat.
Qed.

(** What [save_tfrecords] returns and leaves in the files. *)
Lemma save_tfrecords_files name data n (fs : TF.files) :
  (0 < n)%nat ->
  exists fs' : TF.files,
    save_tfrecords name data (Z.of_nat n) fs
      = Some (map (filepath name) (range (Z.of_nat n)), fs') /\
    (forall j, (j < n)%nat ->
       fs' !! filepath name (N.of_nat j) = Some (record_of <$> shard n j data)) /\
    (forall p, p ∉ map (filepath name) (range (Z.of_nat n)) -> fs' !! p = fs !! p).
Proof.
  intros Hn. unfold save_tfrecords.
  destruct (save_loop name n data
              (foldl (fun fs path => TF.TFRecordWriter path fs) fs
                 (map (filepath name) (range (Z.of_nat n)))) Hn)
    as (fs' & Hloop & Hfiles & Hframe).
  - intros j Hj. rewrite open_writers_lookup, decide_True; [done|].
    apply filepath_elem. by exists j.
  - exists fs'. rewrite Hloop. split; [done|]. split; [done|].
    intros p Hp. rewrite Hframe, open_writers_lookup, decide_False by done. done.
Qed.

Lemma filepaths_NoDup name n : NoDup (map (filepath name) (range (Z.of_nat n))).
Proof.
  unfold range. rewrite Nat2Z.id.
  pose proof (filepath_inj name) as Hpath.
  assert (Hnat : Inj (=) (=) N.of_nat) by (intros i j; apply Nat2N.inj).
  apply (NoDup_fmap_2 (filepath name)), (NoDup_fmap_2 N.of_nat), NoDup_seq.
Qed.

(** C7. [save_tfrecords] deals the dataset out round-robin: for
    [n_records >= 1] it returns the [n_records] distinct paths
    [f"{name}_{idx:02d}.tfrecord"], [idx = 0 .. n_records - 1], and
    file [j] holds, at position [i], the serialized example of the item
    at position [j + i * n_records] of the dataset and nothing else; so
    the item at position [k] is in file [k mod n_records], at position
    [k / n_records], and the files keep the order of the dataset. *)
Theorem save_tfrecords_round_robin (name : string) (data : list (TF.Tensor * Z))
    (n_records : Z) (fs : TF.files) :
  1 <= n_records ->
  exists (filepaths : list string) (fs' : TF.files),
    save_tfrecords name data n_records fs = Some (filepaths, fs') /\
    filepaths = map (fun idx => name +:+ "_" +:+ format_02d idx +:+ ".tfrecord")
                    (map N.of_nat (seq 0 (Z.to_nat n_records))) /\
    length filepaths = Z.to_nat n_records /\
    NoDup filepaths /\
    (forall j, (j < Z.to_nat n_records)%nat ->
       exists path records,
         filepaths !! j = Some path /\
         fs' !! path = Some records /\
         forall i, records !! i = record_of <$> data !! (j + i * Z.to_nat n_records)%nat) /\
    (forall k item, data !! k = Some item ->
       exists path records,
         filepaths !! (k mod Z.to_nat n_records)%nat = Some path /\
         fs' !! path = Some records /\
         records !! (k / Z.to_nat n_records)%nat = Some (record_of item)).
Proof.
  intros Hn. set (n := Z.to_nat n_records).
  assert (Hpos : (0 < n)%nat) by lia.
  assert (Hz : Z.of_nat n = n_records) by lia.
  destruct (save_tfrecords_files name data n fs Hpos) as (fs' & Hsave & Hfiles & _).
  pose proof (filepaths_NoDup name n) as Hnodup.
  assert (Hpath : forall j, (j < n)%nat ->
            map (filepath name) (range (Z.of_nat n)) !! j
            = Some (filepath name (N.of_nat j))).
  { intros j Hj. by rewrite list_lookup_fmap, range_lookup. }
  rewrite Hz in Hsave, Hnodup, Hpath.
  assert (Hall : forall j, (j < n)%nat ->
            exists path records,
              map (filepath name) (range n_records) !! j = Some path /\
              fs' !! path = Some records /\
              forall i, records !! i = record_of <$> data !! (j + i * n)%nat).
  { intros j Hj. eexists _, _. split; [by apply Hpath|]. split; [by apply Hfiles|].
    intros i. by rewrite list_lookup_fmap, shard_lookup. }
  exists (map (filepath name) (range n_records)), fs'.
  split; [exact Hsave|]. split; [reflexivity|].
  split; [unfold range; by rewrite !length_map, length_seq|].
  split; [exact Hnodup|]. split; [exact Hall|].
  intros k item Hk.
  destruct (Hall (k mod n)%nat) as (path & records & Hp & Hrecords & Hi);
    [apply Nat.mod_upper_bound; lia|].
  exists path, records. split; [done|]. split; [done|]. rewrite Hi.
  replace (k mod n + k / n * n)%nat with k
    by (pose proof (Nat.div_mod_eq k n); lia).
  by rewrite Hk.
Qed.

Lemma save_tfrecords_round_robin_witness :
  exists (fs' : TF.files) records,
    save_tfrecords "fashion_mnist-val" [(sample_image, 3); (sample_image, 5)] 2 ∅
      = Some (["fashion_mnist-val_00.tfrecord"; "fashion_mnist-val_01.tfrecord"], fs') /\
    fs' !! "fashion_mnist-val_01.tfrecord" = Some records /\
    records !! 0%nat = Some (record_of (sample_image, 5)).
Proof.
  destruct (save_tfrecords_round_robin "fashion_mnist-val"
              [(sample_image, 3); (sample_image, 5)] 2 ∅)
    as (filepaths & fs' & Hsave & -> & _ & _ & _ & Hitem); [lia|].
  destruct (Hitem 1%nat (sample_image, 5) eq_refl) as (path & records & Hp & Hfile & Hrec).
  injection Hp as <-.
  exists fs', records. split; [exact Hsave|]. split; [exact Hfile|exact Hrec].
Defined.




End SaveFacts.

(** ** The round trip of an example, and the defaults *)

Section PreprocessFacts.

Import Chapter13.

(** C2, as the code has it.  [create_example] and [preprocess] do make
    a round trip: for every 28x28 [uint8] image and every [int64]
    label, [preprocess] of the serialized example returns the image,
    with shape [28, 28], and the label. *)
Theorem create_example_preprocess_round_trip (image : TF.Tensor) (label : Z) :
  is_image image -> is_int64 label ->
  preprocess (TF.SerializeToString (create_example image label)) = Some (image, label) /\
  TF.shape image = [28%N; 28%N].
Proof.
  intros Himg Hlabel. split; [by apply preprocess_create_example|apply Himg].
Qed.

Lemma create_example_preprocess_round_trip_witness :
  preprocess (TF.SerializeToString (create_example sample_image (-7)))
  = Some (sample_image, -7).
Proof.
  refine (proj1 (create_example_preprocess_round_trip sample_image (-7) _ _)).
  - repeat split.
  - unfold is_int64. lia.
Defined.

(** C2 fails: no image and label are read back as anything else. *)
Lemma round_trip_never_fails :
  ~ exists image label,
      is_image image /\ is_int64 label /\
      preprocess (TF.SerializeToString (create_example image label)) <> Some (image, label).
Proof.
  intros (image & label & Himg & Hlabel & Hneq).
  apply Hneq. by apply preprocess_create_example.
Qed.

(** C3, as the code has it.  [preprocess] passes default values to the
    parser.  On a record that parses as an example without ['label']
    and with the serialized 28x28 image [image] as ['image'], it returns
    [image] with the default label [-1]; on a record that parses as an
    example without ['image'] the default empty string is taken, which
    is no serialized tensor, and it raises. *)
Theorem preprocess_missing_feature (tfrecord : bytes) (e : TF.Example) :
  TF.ParseFromString tfrecord = Some e ->
  (TF.feature (TF.features e) !! "image"%string = None -> preprocess tfrecord = None) /\
  (forall image,
     is_image image ->
     TF.feature (TF.features e) !! "image"%string
       = Some (TF.BytesList [TF.serialize_tensor image]) ->
     TF.feature (TF.features e) !! "label"%string = None ->
     preprocess tfrecord = Some (image, -1)).
Proof.
  intros He. split.
  - by apply preprocess_image_missing.
  - intros image Himg Himage Hlabel. by eapply preprocess_label_missing.
Qed.

Lemma preprocess_missing_feature_witness :
  preprocess (TF.SerializeToString unlabeled_example) = Some (sample_image, -1).
Proof.
  refine (proj2 (preprocess_missing_feature
                   (TF.SerializeToString unlabeled_example) unlabeled_example _)
                sample_image _ _ _).
  - vm_compute. reflexivity.
  - repeat split.
  - reflexivity.
  - reflexivity.
Defined.

(** C3 fails on a record without label: [preprocess] does not raise, it
    returns the default label. *)
Lemma preprocess_recovers_missing_label :
  TF.ParseFromString (TF.SerializeToString unlabeled_example) = Some unlabeled_example /\
  TF.feature (TF.features unlabeled_example) !! "label"%string = None /\
  preprocess (TF.SerializeToString unlabeled_example) = Some (sample_image, -1).
Proof. repeat split; vm_compute; reflexivity. Qed.

End PreprocessFacts.

(** ** The words of the preprocessed text *)

Section WordsFacts.

Import Chapter13.

Lemma lower_byte_idemp c : TF.lower_byte (TF.lower_byte c) = TF.lower_byte c.
Proof. destruct c as [[] [] [] [] [] [] [] []]; reflexivity. Qed.

Lemma lower_idemp s : TF.lower (TF.lower s) = TF.lower s.
Proof.
  unfold TF.lower. rewrite map_map. apply map_ext. intros c. apply lower_byte_idemp.
Qed.

(** What the character class does at the front of a text: it matches
    one byte or more, or it leaves a lower-case letter or a byte from
    0x80 on. *)
Lemma re_not_lower_cases c t :
  match TF.re_not_lower (c :: t) with
  | Some (S _) => True
  | Some O => False
  | None => TF.is_lower c = true \/ (128 <= N_of_ascii c)%N
  end.
Proof.
  unfold TF.re_not_lower. destruct (N_of_ascii c <? 128)%N eqn:Hc.
  - destruct (TF.is_lower c); [by left|done].
  - apply N.ltb_ge in Hc.
    destruct ((194 <=? N_of_ascii c) && (N_of_ascii c <=? 223))%N.
    { destruct t as [|c1 t]; [by right|]. destruct (TF.is_continuation c1); [done|by right]. }
    destruct ((224 <=? N_of_ascii c) && (N_of_ascii c <=? 239))%N.
    { destruct t as [|c1 [|c2 t]]; try (by right).
      destruct (TF.is_continuation c1 && TF.is_continuation c2); [done|by right]. }
    destruct ((240 <=? N_of_ascii c) && (N_of_ascii c <=? 244))%N.
    { destruct t as [|c1 [|c2 [|c3 t]]]; try (by right).
      destruct (TF.is_continuation c1 && TF.is_continuation c2 && TF.is_continuation c3);
        [done|by right]. }
    by right.
Qed.

(** After the second replacement a review holds letters, spaces and
    bytes from 0x80 on. *)
Lemma replace_not_lower_bytes skip s :
  Forall (fun c => (TF.is_lower c = true \/ (128 <= N_of_ascii c)%N) \/ c = " "%char)
         (TF.regex_replace_from skip TF.re_not_lower (b " ") s).
Proof.
  revert skip. induction s as [|c s IH]; intros skip; cbn [TF.regex_replace_from];
    [constructor|].
  destruct skip as [|k]; [|apply IH].
  pose proof (re_not_lower_cases c s) as Hc.
  destruct (TF.re_not_lower (c :: s)) as [[|k]|].
  - done.
  - constructor; [by right|apply IH].
  - constructor; [by left|apply IH].
Qed.

(** A replacement by a space keeps what holds of every byte and of the
    space. *)
Lemma regex_replace_from_Forall (P : ascii -> Prop) skip m s :
  P " "%char -> Forall P s -> Forall P (TF.regex_replace_from skip m (b " ") s).
Proof.
  intros Hsp Hs. revert skip. induction Hs as [|c s Hc Hs IH]; intros skip;
    cbn [TF.regex_replace_from]; [constructor|].
  destruct skip as [|k]; [|apply IH].
  destruct (m (c :: s)) as [[|k]|].
  - constructor; [done|apply IH].
  - constructor; [done|apply IH].
  - constructor; [done|apply IH].
Qed.

Lemma lower_byte_ascii c :
  (N_of_ascii c < 128)%N -> (N_of_ascii (TF.lower_byte c) < 128)%N.
Proof. destruct c as [[] [] [] [] [] [] [] []]; vm_compute; done. Qed.

(** The tokens of a text are runs of its bytes other than spaces. *)
Lemma split_from_tokens (P : ascii -> Prop) cur s :
  Forall P cur ->
  Forall (fun c => P c \/ c = " "%char) s ->
  Forall (fun w => w <> [] /\ Forall P w) (TF.split_from cur s).
Proof.
  revert cur. induction s as [|c s IH]; intros cur Hcur Hs; simpl.
  - destruct cur as [|c' cur]; [constructor|].
    constructor; [|constructor]. split; [done|exact Hcur].
  - apply Forall_cons in Hs as [Hc Hs].
    destruct (TF.is_space c) eqn:Hsp.
    + destruct cur as [|c' cur]; [by apply IH|].
      constructor; [split; [done|exact Hcur]|]. by apply IH.
    + apply IH; [|done]. apply Forall_app. split; [done|].
      constructor; [|constructor]. destruct Hc as [Hc| ->]; [done|].
      vm_compute in Hsp. discriminate.
Qed.

Lemma words_of_tokens x : Forall is_token (words_of x).
Proof.
  unfold words_of, TF.split, TF.regex_replace.
  apply split_from_tokens; [constructor|apply replace_not_lower_bytes].
Qed.

(** The tokens of an ASCII text are words. *)
Lemma words_of_words x : ascii_text (take 300 x) -> Forall is_word (words_of x).
Proof.
  intros Hx. unfold words_of, TF.split, TF.regex_replace.
  apply split_from_tokens; [constructor|].
  set (text := TF.regex_replace_from 0 TF.re_br (b " ") (TF.lower (TF.substr 0 300 x))).
  assert (Htext : Forall (fun c => (N_of_ascii c < 128)%N)
                    (TF.regex_replace_from 0 TF.re_not_lower (b " ") text)).
  { apply regex_replace_from_Forall; [by vm_compute|].
    apply regex_replace_from_Forall; [by vm_compute|].
    unfold TF.lower, TF.substr. rewrite drop_0. apply Forall_fmap.
    eapply Forall_impl; [exact Hx|]. apply lower_byte_ascii. }
  pose proof (replace_not_lower_bytes 0 text) as Hbytes.
  rewrite Forall_forall in Htext, Hbytes. apply Forall_forall. intros c Hc.
  destruct (Hbytes c Hc) as [[Hl|Hge]|Hsp]; [by left| |by right].
  specialize (Htext c Hc). lia.
Qed.

Lemma word_token w : is_word w -> is_token w.
Proof.
  intros [Hne Hw]. split; [done|]. eapply Forall_impl; [exact Hw|]. by left.
Qed.

Lemma token_not_pad w : is_token w -> w <> pad.
Proof.
  intros [_ Hw] ->. apply Forall_cons in Hw as [Hc _]. vm_compute in Hc.
  destruct Hc as [Hc|Hc]; [discriminate|by apply Hc].
Qed.

(** Only the first 300 bytes of a review, read without case, count. *)
Lemma words_of_prefix x : words_of (TF.lower (take 300 x)) = words_of x.
Proof.
  unfold words_of, TF.substr. rewrite !drop_0. do 3 f_equal.
  unfold TF.lower at 2 3. rewrite <- fmap_take, take_take, Nat.min_id.
  apply lower_idemp.
Qed.

(** Neither replacement makes a review longer, and no token is longer
    than the text it is cut from. *)
Lemma regex_replace_from_length skip m s :
  (length (TF.regex_replace_from skip m (b " ") s) <= length s)%nat.
Proof.
  revert skip. induction s as [|c s IH]; intros skip;
    cbn [TF.regex_replace_from length]; [done|].
  destruct skip as [|k]; [|specialize (IH k); lia].
  destruct (m (c :: s)) as [[|k]|]; rewrite ?length_app; cbn [length].
  - specialize (IH 0%nat). lia.
  - specialize (IH k). change (length (b " ")) with 1%nat. lia.
  - specialize (IH 0%nat). lia.
Qed.

Lemma split_from_length cur s :
  Forall (fun w => length w <= length cur + length s)%nat (TF.split_from cur s).
Proof.
  revert cur. induction s as [|c s IH]; intros cur; simpl.
  - destruct cur as [|c' cur]; [constructor|].
    constructor; [simpl; lia|constructor].
  - destruct (TF.is_space c).
    + destruct cur as [|c' cur].
      * eapply Forall_impl; [apply IH|]. simpl. intros; lia.
      * constructor; [simpl; lia|].
        eapply Forall_impl; [apply IH|]. simpl. intros; lia.
    + eapply Forall_impl; [apply IH|]. simpl. intros w. rewrite length_app. simpl. lia.
Qed.

Lemma words_of_length x : Forall (fun w => length w <= 300)%nat (words_of x).
Proof.
  unfold words_of, TF.split, TF.regex_replace.
  eapply Forall_impl; [apply split_from_length|]. simpl. intros w Hw.
  etrans; [exact Hw|]. etrans; [apply regex_replace_from_length|].
  etrans; [apply regex_replace_from_length|].
  unfold TF.lower, TF.substr. rewrite length_map, length_take. lia.
Qed.

Lemma resize_entries (ws : list bytes) w :
  w ∈ resize 50 pad ws -> w = pad \/ w ∈ ws.
Proof.
  rewrite resize_spec, elem_of_app. intros [Hw|Hw].
  - right. by eapply elem_of_sublist; [|apply sublist_take].
  - left. by apply elem_of_replicate in Hw as [-> _].
Qed.

(** X1. Every entry of the tensor [preprocess_text] returns is either
    the padding [b'<pad>'] or a token of one to 300 bytes, each of them
    a lower-case letter or a byte from 0x80 on (a byte of a cut or
    invalid UTF-8 sequence, which the character class [[^a-z]] leaves
    in place); no token is the padding; and the tokens of a review
    whose first 300 bytes are ASCII are words of lower-case letters. *)
Theorem preprocess_text_entries (X_batch : list bytes) (n_words : Z) :
  exists T,
    preprocess_text X_batch n_words = Some T /\
    Forall2 (fun x row =>
               Forall (fun w =>
                         w = pad \/
                         (is_token w /\ w <> pad /\ (1 <= length w <= 300)%nat /\
                          (ascii_text (take 300 x) -> is_word w))) row)
            X_batch T.
Proof.
  rewrite preprocess_text_unfold. eexists. split; [reflexivity|].
  apply Forall2_fmap_r, Forall_Forall2_diag, Forall_forall. intros x _. unfold compose.
  apply Forall_forall. intros w [->|Hw]%resize_entries; [by left|right].
  pose proof (words_of_tokens x) as Htokens.
  pose proof (words_of_length x) as Hlen.
  rewrite Forall_forall in Htokens, Hlen. specialize (Htokens w Hw).
  specialize (Hlen w Hw). split; [done|]. split; [by apply token_not_pad|]. split.
  - destruct Htokens as [Hne _]. destruct w; [done|]. simpl in *. lia.
  - intros Hx. pose proof (words_of_words x Hx) as Hwords.
    rewrite Forall_forall in Hwords. by apply Hwords.
Qed.

Lemma preprocess_text_entries_witness :
  exists T,
    preprocess_text [b "It's a great, great movie!"] 50 = Some T /\
    Forall (Forall (fun w => w = pad \/ is_word w)) T.
Proof.
  destruct (preprocess_text_entries [b "It's a great, great movie!"] 50) as (T & HT & Hall).
  exists T. split; [exact HT|].
  apply Forall2_cons_inv_l in Hall as (row & T' & Hrow & Hnil & ->).
  apply Forall2_nil_inv_l in Hnil as ->.
  constructor; [|constructor].
  eapply Forall_impl; [exact Hrow|]. intros w [->|(_ & _ & _ & Hw)]; [by left|right].
  apply Hw. unfold ascii_text. repeat constructor.
Defined.

(** A review cut inside a character: of its 299 letters and the
    two-byte character after them, the first 300 bytes keep the lead
    byte 0xC3, which is no character and stays in the token. *)
Example preprocess_text_cut_character :
  words_of (replicate 299 "a"%char ++ [ascii_of_N 195; ascii_of_N 169])
  = [replicate 299 "a"%char ++ [ascii_of_N 195]].
Proof. vm_compute. reflexivity. Qed.

(** X2. Two batches whose reviews agree on their first 300 bytes, read
    without ASCII case, are preprocessed to the same tensor. *)
Theorem preprocess_text_prefix_case (X_batch Y_batch : list bytes) (n_words : Z) :
  Forall2 (fun x y => TF.lower (take 300 x) = TF.lower (take 300 y)) X_batch Y_batch ->
  preprocess_text X_batch n_words = preprocess_text Y_batch n_words.
Proof.
  intros Hxy. rewrite !preprocess_text_unfold. f_equal.
  induction Hxy as [|x y X Y Hx _ IH]; [done|]. simpl. f_equal; [|exact IH].
  by rewrite <- (words_of_prefix x), <- (words_of_prefix y), Hx.
Qed.

Lemma preprocess_text_prefix_case_witness :
  preprocess_text [b "A GREAT Movie"] 50 = preprocess_text [b "a great movie"] 50.
Proof.
  apply (preprocess_text_prefix_case [b "A GREAT Movie"] [b "a great movie"] 50).
  repeat constructor.
Defined.

End WordsFacts.

(** ** What the vocabulary holds *)

Section VocabularyContents.

Import Chapter13.

(** The vocabulary, from the rows of the preprocessed sample. *)
Lemma get_vocabulary_rows data_sample max_size :
  let rows := map (fun x => resize 50 pad (words_of x)) data_sample in
  preprocess_text data_sample 50 = Some rows /\
  get_vocabulary data_sample max_size
  = Some (pad :: (most_common max_size (count_words rows)).*1).
Proof.
  intros rows. unfold get_vocabulary. rewrite preprocess_text_unfold. done.
Qed.

Lemma elem_of_concat {A} (x : A) (ls : list (list A)) :
  x ∈ concat ls <-> exists l, x ∈ l /\ l ∈ ls.
Proof.
  induction ls as [|l ls IH]; simpl.
  - split; [by intros ?%elem_of_nil|by intros (l & _ & ?%elem_of_nil)].
  - rewrite elem_of_app, IH. split.
    + intros [Hx|(l' & Hx & Hl')].
      * exists l. split; [done|apply list_elem_of_here].
      * exists l'. split; [done|by apply list_elem_of_further].
    + intros (l' & Hx & [->|Hl']%elem_of_cons); [by left|]. right. eauto.
Qed.

Lemma sorted_app_elem {A} (R : A -> A -> Prop) (l1 l2 : list A) x1 x2 :
  StronglySorted R (l1 ++ l2) -> x1 ∈ l1 -> x2 ∈ l2 -> R x1 x2.
Proof.
  induction l1 as [|y l1 IH]; simpl; intros Hs Hx1 Hx2.
  - by apply elem_of_nil in Hx1.
  - apply StronglySorted_inv in Hs as [Hs Hy].
    apply elem_of_cons in Hx1 as [->|Hx1]; [|by apply IH].
    rewrite Forall_forall in Hy. apply Hy, elem_of_app. by right.
Qed.

(** The words of the rows are tokens, and words when the sample is
    ASCII. *)
Lemma rows_tokens data_sample w :
  w ∈ filter (fun w => w <> pad)
        (concat (map (fun x => resize 50 pad (words_of x)) data_sample)) ->
  is_token w /\
  (Forall (fun x => ascii_text (take 300 x)) data_sample -> is_word w).
Proof.
  intros [Hne Hin]%list_elem_of_filter.
  apply elem_of_concat in Hin as (row & Hw & Hrow).
  apply list_elem_of_fmap in Hrow as (x & -> & Hx).
  apply resize_entries in Hw as [->|Hw]; [done|]. split.
  - pose proof (words_of_tokens x) as Htokens. rewrite Forall_forall in Htokens. auto.
  - intros Hascii. rewrite Forall_forall in Hascii.
    pose proof (words_of_words x (Hascii x Hx)) as Hwords.
    rewrite Forall_forall in Hwords. auto.
Qed.

Lemma counter_frequency rows k v :
  (k, v) ∈ count_words rows -> k <> pad /\ v = frequency rows k /\ 0 < v.
Proof.
  intros Hin. destruct (count_words_counts rows) as (_ & _ & Hc).
  destruct (Hc _ _ Hin) as [Hk ->].
  pose proof Hk as [Hne Hk']%list_elem_of_filter.
  split; [done|]. split.
  - unfold frequency. f_equal. by apply filter_pad_count.
  - assert (Hin' : k ∈ filter (fun w' => w' = k) (filter (fun w => w <> pad) (concat rows))).
    { apply list_elem_of_filter. done. }
    destruct (filter _ _); [by apply elem_of_nil in Hin'|]. simpl. lia.
Qed.

(** X3. Every word [get_vocabulary] lists after [b'<pad>'] is a token
    (bytes that are lower-case letters or from 0x80 on) that occurs in
    the preprocessed sample, and a word of lower-case letters when the
    first 300 bytes of every review of the sample are ASCII; and a
    vocabulary with fewer than [max_size] words lists every word of the
    preprocessed sample. *)
Theorem get_vocabulary_contents (data_sample : list bytes) (max_size : Z) :
  exists rows words,
    preprocess_text data_sample 50 = Some rows /\
    get_vocabulary data_sample max_size = Some (pad :: words) /\
    Forall (fun w => is_token w /\ 0 < frequency rows w) words /\
    (Forall (fun x => ascii_text (take 300 x)) data_sample -> Forall is_word words) /\
    (Z.of_nat (length words) < max_size ->
     forall row w, row ∈ rows -> w ∈ row -> w <> pad -> w ∈ words).
Proof.
  destruct (get_vocabulary_rows data_sample max_size) as [Hrows Hvocab].
  eexists _, _. split; [exact Hrows|]. split; [exact Hvocab|].
  set (rows := map (fun x => resize 50 pad (words_of x)) data_sample).
  destruct (count_words_counts rows) as (Hnd & Hall & Hc). split; [|split].
  - apply Forall_fmap, Forall_forall. intros [k v] Hin%most_common_elem. simpl.
    destruct (counter_frequency _ _ _ Hin) as (_ & <- & Hpos).
    split; [|done]. apply (rows_tokens data_sample). by destruct (Hc _ _ Hin).
  - intros Hascii. apply Forall_fmap, Forall_forall.
    intros [k v] Hin%most_common_elem. simpl.
    apply (rows_tokens data_sample); [|done]. by destruct (Hc _ _ Hin).
  - intros Hlen row w Hrow Hw Hne. unfold most_common in *.
    rewrite length_fmap, length_take in Hlen.
    rewrite take_ge by lia. rewrite sorted_desc_Permutation.
    apply Hall, list_elem_of_filter. split; [done|].
    apply elem_of_concat. eauto.
Qed.

Lemma get_vocabulary_contents_witness :
  exists rows words,
    preprocess_text X_example 50 = Some rows /\
    get_vocabulary X_example 1000 = Some (pad :: words) /\
    Forall (fun w => is_token w /\ 0 < frequency rows w) words /\
    Forall is_word words /\
    b "movie" ∈ words.
Proof.
  destruct (get_vocabulary_contents X_example 1000)
    as (rows & words & Hrows & Hvocab & Hwords & Hascii & Hall).
  exists rows, words. do 3 (split; [done|]).
  split; [apply Hascii; unfold ascii_text; repeat constructor|].
  pose proof Hrows as Hr. vm_compute in Hr. injection Hr as <-.
  pose proof Hvocab as Hv. vm_compute in Hv. injection Hv as <-.
  eapply Hall.
  - reflexivity.
  - apply list_elem_of_here.
  - apply list_elem_of_lookup. exists 5%nat. reflexivity.
  - discriminate.
Defined.

(** X4. The vocabulary holds the most common words: a word of the
    preprocessed sample that [get_vocabulary] leaves out is no more
    frequent than any word it lists, and then the vocabulary is full,
    with [max_size] words after [b'<pad>']. *)
Theorem get_vocabulary_most_common (data_sample : list bytes) (max_size : Z) :
  exists rows words,
    preprocess_text data_sample 50 = Some rows /\
    get_vocabulary data_sample max_size = Some (pad :: words) /\
    forall row w', row ∈ rows -> w' ∈ row -> w' <> pad -> w' ∉ words ->
      Z.of_nat (length words) = Z.max 0 max_size /\
      forall w, w ∈ words -> frequency rows w' <= frequency rows w.
Proof.
  destruct (get_vocabulary_rows data_sample max_size) as [Hrows Hvocab].
  eexists _, _. split; [exact Hrows|]. split; [exact Hvocab|].
  set (rows := map (fun x => resize 50 pad (words_of x)) data_sample).
  destruct (count_words_counts rows) as (Hnd & Hall & Hc).
  intros row w' Hrow Hw' Hne Hout. unfold most_common in *.
  set (l := sorted_desc (count_words rows)) in *.
  set (n := Z.to_nat max_size) in *.
  assert (Hkey : w' ∈ (count_words rows).*1).
  { apply Hall, list_elem_of_filter. split; [done|]. apply elem_of_concat. eauto. }
  apply list_elem_of_fmap in Hkey as ([k v'] & Hk & Hin). simpl in Hk. subst k.
  assert (Hl : (w', v') ∈ take n l ++ drop n l).
  { rewrite take_drop. unfold l. by rewrite sorted_desc_Permutation. }
  apply elem_of_app in Hl as [Hl|Hl].
  { exfalso. apply Hout, list_elem_of_fmap. by exists (w', v'). }
  split.
  - rewrite length_fmap, length_take.
    assert (n < length l)%nat; [|lia].
    destruct (le_lt_dec (length l) n) as [Hge|]; [|done].
    rewrite drop_ge in Hl by done. by apply elem_of_nil in Hl.
  - intros w ([k v] & -> & Hw)%list_elem_of_fmap. simpl.
    pose proof (sorted_desc_sorted (count_words rows)) as Hsorted. fold l in Hsorted.
    rewrite <- (take_drop n l) in Hsorted.
    pose proof (sorted_app_elem _ _ _ _ _ Hsorted Hw Hl) as Hle.
    simpl in Hle.
    assert (Hkv : (k, v) ∈ count_words rows).
    { rewrite <- (sorted_desc_Permutation (count_words rows)). fold l.
      by eapply elem_of_sublist; [|apply sublist_take]. }
    destruct (counter_frequency _ _ _ Hin) as (_ & <- & _).
    destruct (counter_frequency _ _ _ Hkv) as (_ & <- & _). done.
Qed.

Lemma get_vocabulary_most_common_witness :
  exists rows words,
    preprocess_text X_example 50 = Some rows /\
    get_vocabulary X_example 2 = Some (pad :: words) /\
    Z.of_nat (length words) = Z.max 0 2 /\
    forall w, w ∈ words -> frequency rows (b "movie") <= frequency rows w.
Proof.
  destruct (get_vocabulary_most_common X_example 2) as (rows & words & Hrows & Hvocab & Hmost).
  exists rows, words. do 2 (split; [done|]).
  pose proof Hrows as Hr. vm_compute in Hr. injection Hr as <-.
  pose proof Hvocab as Hv. vm_compute in Hv. injection Hv as <-.
  eapply Hmost.
  - apply list_elem_of_here.
  - apply list_elem_of_lookup. exists 5%nat. reflexivity.
  - discriminate.
  - rewrite !elem_of_cons, elem_of_nil. intros [Heq|[Heq|[]]]; discriminate.
Defined.

End VocabularyContents.

(** ** The sums of the bags of words *)

Section BagSums.

Import Chapter13.

Lemma row_sum_zip_add (a c : list Z) :
  length a = length c -> row_sum (zip_with Z.add a c) = row_sum a + row_sum c.
Proof.
  revert c. induction a as [|x a IH]; intros [|y c] Hlen; simpl in *; try done.
  rewrite IH by lia. lia.
Qed.

Lemma drop_zip_add (a c : list Z) :
  drop 1 (zip_with Z.add a c) = zip_with Z.add (drop 1 a) (drop 1 c).
Proof. destruct a, c; simpl; try done. by destruct a. Qed.

Lemma row_sum_indicator (x : Z) (start n : nat) :
  row_sum (map (fun j => if decide (x = Z.of_nat j) then 1 else 0) (seq start n))
  = if decide (Z.of_nat start <= x < Z.of_nat (start + n)) then 1 else 0.
Proof.
  revert start. induction n as [|n IH]; intros start; simpl.
  - rewrite decide_False by lia. done.
  - rewrite IH.
    destruct (decide (x = Z.of_nat start)) as [->|Hne].
    + rewrite decide_False by lia. rewrite decide_True by lia. done.
    + destruct (decide (Z.of_nat (S start) <= x < Z.of_nat (S start + n))).
      * rewrite decide_True by lia. done.
      * rewrite decide_False by lia. done.
Qed.

Lemma row_sum_one_hot_tail depth (x : Z) :
  row_sum (drop 1 (TF.one_hot_index depth x))
  = if decide (1 <= x < Z.of_nat depth) then 1 else 0.
Proof.
  unfold TF.one_hot_index. destruct depth as [|d]; simpl.
  - rewrite decide_False by lia. done.
  - rewrite drop_0, row_sum_indicator.
    destruct (decide (1 <= x < Z.of_nat (S d))).
    + rewrite decide_True by lia. done.
    + rewrite decide_False by lia. done.
Qed.

Lemma sum_one_hot_length depth (row : list Z) :
  length (foldr (zip_with Z.add) (replicate depth 0) (map (TF.one_hot_index depth) row))
  = depth.
Proof.
  induction row as [|x row IH]; simpl.
  - by rewrite length_replicate.
  - rewrite length_zip_with, one_hot_index_length, IH. lia.
Qed.

(** On a row of at most 2^24 entries no float32 addition rounds. *)
Lemma sum_float32_exact depth (row : list Z) :
  Z.of_nat (length row) <= 2 ^ 24 ->
  foldr (zip_with TF.float32_add) (replicate depth 0) (map (TF.one_hot_index depth) row)
  = foldr (zip_with Z.add) (replicate depth 0) (map (TF.one_hot_index depth) row).
Proof.
  intros Hlen. apply list_eq. intros j.
  destruct (decide (j < depth)%nat) as [Hj|Hj].
  - rewrite sum_float32_lookup, sum_one_hot_lookup by done. f_equal.
    pose proof (count_occ_length row (Z.of_nat j)). lia.
  - rewrite !lookup_ge_None_2; [done|..].
    + rewrite sum_one_hot_length. lia.
    + rewrite sum_float32_length. lia.
Qed.

Lemma row_sum_bag depth (row : list Z) :
  row_sum (drop 1 (foldr (zip_with Z.add) (replicate depth 0)
                         (map (TF.one_hot_index depth) row)))
  = count_tokens depth row.
Proof.
  unfold count_tokens. induction row as [|x row IH]; simpl.
  - destruct depth as [|d]; simpl; [done|]. rewrite drop_0.
    induction d as [|d IHd]; simpl; [done|]. by rewrite IHd.
  - rewrite drop_zip_add, row_sum_zip_add, IH, row_sum_one_hot_tail.
    + destruct (decide (1 <= x < Z.of_nat depth)).
      * rewrite filter_cons_True by done. simpl. lia.
      * rewrite filter_cons_False by done. lia.
    + rewrite !length_drop, one_hot_index_length, sum_one_hot_length. done.
Qed.

(** X5. On rows of at most 2^24 entries, where the float32 sums are
    exact, the entries of every row [BagOfWords.call] returns add up to
    the number of entries of the input row that are token ids from 1 to
    [n_tokens - 1]: the pad id 0 and ids outside the table add nothing.
    The row has [n_tokens - 1] columns, none when [n_tokens] is 0 or 1. *)
Theorem BagOfWords_call_row_sums (self : BagOfWords.t) (inputs : list (list Z)) :
  Forall (fun row => Z.of_nat (length row) <= 2 ^ 24) inputs ->
  Forall2 (fun row out =>
             length out = (BagOfWords.n_tokens self - 1)%nat /\
             row_sum out = count_tokens (BagOfWords.n_tokens self) row)
          inputs (BagOfWords.call self inputs).
Proof.
  unfold BagOfWords.call, TF.slice_cols_from, TF.reduce_sum_axis1, TF.one_hot.
  rewrite !map_map. induction 1 as [|row inputs Hrow _ IH]; simpl; constructor; [|exact IH].
  rewrite sum_float32_exact by done.
  split; [|apply row_sum_bag].
  rewrite length_drop, sum_one_hot_length. done.
Qed.

Lemma BagOfWords_call_row_sums_witness :
  Forall2 (fun row out =>
             length out = (4 - 1)%nat /\
             row_sum out = count_tokens 4 row)
          [[1; 3; 3; 0]; [2; 7; 0; -1]]
          (BagOfWords.call {| BagOfWords.n_tokens := 4 |} [[1; 3; 3; 0]; [2; 7; 0; -1]]).
Proof.
  apply (BagOfWords_call_row_sums {| BagOfWords.n_tokens := 4 |}
           [[1; 3; 3; 0]; [2; 7; 0; -1]]).
  repeat constructor; simpl; lia.
Defined.

End BagSums.

(** ** The lookup table of [TextVectorization] *)

Section TextVectorizationFacts.

Import Chapter13.

Variable Fingerprint64 : bytes -> N.

Lemma vocabulary_words data_sample max_size :
  exists words,
    get_vocabulary data_sample max_size = Some (pad :: words) /\
    NoDup (pad :: words) /\
    (length words <= Z.to_nat max_size)%nat.
Proof.
  destruct (get_vocabulary_rows data_sample max_size) as [_ Hvocab].
  eexists. split; [exact Hvocab|].
  set (rows := map (fun x => resize 50 pad (words_of x)) data_sample).
  destruct (count_words_counts rows) as (Hnd & Hall & Hc). split.
  - apply NoDup_cons. split; [|by apply most_common_NoDup].
    intros ([k v] & Hk & Hin%most_common_elem)%list_elem_of_fmap. simpl in Hk. subst k.
    by destruct (counter_frequency _ _ _ Hin) as [Hne _].
  - unfold most_common. rewrite length_fmap, length_take. lia.
Qed.

Lemma make_table_vocab (keys : list bytes) k :
  NoDup keys -> 0 < k ->
  TF.make_table keys (seqZ 0 (Z.of_nat (length keys))) k
  = Some {| TF.table_ids := list_to_map (zip keys (seqZ 0 (Z.of_nat (length keys))));
            TF.num_oov_buckets := k |}.
Proof.
  intros Hnd Hk. unfold TF.make_table. rewrite decide_True; [done|].
  assert (Hlen : length keys = length (seqZ 0 (Z.of_nat (length keys))))
    by (rewrite length_seqZ; lia).
  split; [done|]. split; [|done].
  apply Forall_forall. intros [w v] Hin. simpl.
  apply elem_of_list_to_map_1; [|done]. rewrite fst_zip by lia. done.
Qed.

Lemma make_table_no_buckets (keys : list bytes) values k :
  k <= 0 -> TF.make_table keys values k = None.
Proof.
  intros Hk. unfold TF.make_table. rewrite decide_False; [done|]. lia.
Qed.

Lemma table_lookup_vocab (keys : list bytes) k w :
  NoDup keys -> 0 < k ->
  let t := {| TF.table_ids := list_to_map (zip keys (seqZ 0 (Z.of_nat (length keys))));
              TF.num_oov_buckets := k |} in
  (forall p, keys !! p = Some w -> TF.table_lookup Fingerprint64 t w = Z.of_nat p) /\
  (w ∉ keys ->
   TF.table_lookup Fingerprint64 t w
   = Z.of_nat (length keys) + Z.of_N (Fingerprint64 w) mod k).
Proof.
  intros Hnd Hk t.
  assert (Hlen : length keys = length (seqZ 0 (Z.of_nat (length keys))))
    by (rewrite length_seqZ; lia).
  assert (Hfst : (zip keys (seqZ 0 (Z.of_nat (length keys)))).*1 = keys)
    by (apply fst_zip; lia).
  split.
  - intros p Hp. unfold TF.table_lookup, t. simpl.
    assert (Hin : (w, Z.of_nat p) ∈ zip keys (seqZ 0 (Z.of_nat (length keys)))).
    { apply list_elem_of_lookup. exists p. apply lookup_zip_with_Some.
      exists w, (Z.of_nat p). split; [done|]. split; [done|].
      apply lookup_seqZ. apply lookup_lt_Some in Hp. lia. }
    rewrite (elem_of_list_to_map_1 _ _ _ ltac:(by rewrite Hfst) Hin). simpl.
    rewrite decide_False by lia. done.
  - intros Hout. unfold TF.table_lookup, t. simpl.
    rewrite (not_elem_of_list_to_map_1 _ w) by (by rewrite Hfst). simpl.
    rewrite map_size_list_to_map by (by rewrite Hfst).
    rewrite length_zip_with. do 2 f_equal. lia.
Qed.

(** What [adapt] stores and what [call] then computes. *)
Lemma adapt_call max_size k data_sample inputs :
  0 < k ->
  exists words table,
    get_vocabulary data_sample max_size = Some (pad :: words) /\
    NoDup (pad :: words) /\
    (length words <= Z.to_nat max_size)%nat /\
    TextVectorization.adapt (TextVectorization.init max_size k) data_sample
    = Some {| TextVectorization.max_vocabulary_size := max_size;
              TextVectorization.n_oov_buckets := k;
              TextVectorization.vocab := Some (pad :: words);
              TextVectorization.table := Some table |} /\
    TextVectorization.call Fingerprint64
      {| TextVectorization.max_vocabulary_size := max_size;
         TextVectorization.n_oov_buckets := k;
         TextVectorization.vocab := Some (pad :: words);
         TextVectorization.table := Some table |} inputs
    = Some (map (map (TF.table_lookup Fingerprint64 table))
              (map (fun x => resize 50 pad (words_of x)) inputs)) /\
    forall w,
      (forall p, (pad :: words) !! p = Some w ->
                 TF.table_lookup Fingerprint64 table w = Z.of_nat p) /\
      (w ∉ pad :: words ->
       TF.table_lookup Fingerprint64 table w
       = Z.of_nat (length (pad :: words)) + Z.of_N (Fingerprint64 w) mod k).
Proof.
  intros Hk.
  destruct (vocabulary_words data_sample max_size) as (words & Hvocab & Hnd & Hlen).
  eexists words, _. split; [exact Hvocab|]. do 2 (split; [done|]).
  split; [|split].
  - unfold TextVectorization.adapt, TextVectorization.init. cbn [TextVectorization.max_vocabulary_size
      TextVectorization.n_oov_buckets]. rewrite Hvocab. cbn [mbind option_bind].
    rewrite make_table_vocab by done. cbn [mbind option_bind]. reflexivity.
  - unfold TextVectorization.call. rewrite preprocess_text_unfold. done.
  - intros w. by apply table_lookup_vocab.
Qed.

Lemma lookup_word_id (words : list bytes) k table w :
  0 < k -> NoDup (pad :: words) ->
  (forall p, (pad :: words) !! p = Some w ->
             TF.table_lookup Fingerprint64 table w = Z.of_nat p) ->
  (w ∉ pad :: words ->
   TF.table_lookup Fingerprint64 table w
   = Z.of_nat (length (pad :: words)) + Z.of_N (Fingerprint64 w) mod k) ->
  let id := TF.table_lookup Fingerprint64 table w in
  0 <= id < Z.of_nat (length (pad :: words)) + k /\
  (w ∈ pad :: words ->
   (pad :: words) !! Z.to_nat id = Some w /\ id < Z.of_nat (length (pad :: words))) /\
  (w ∉ pad :: words ->
   id = Z.of_nat (length (pad :: words)) + Z.of_N (Fingerprint64 w) mod k) /\
  (id = 0 <-> w = pad).
Proof.
  intros Hk Hnd Hin Hout id. subst id.
  pose proof (Z.mod_pos_bound (Z.of_N (Fingerprint64 w)) k Hk) as Hmod.
  destruct (decide (w ∈ pad :: words)) as [Hw|Hw].
  - pose proof Hw as [p Hp]%list_elem_of_lookup.
    rewrite (Hin p Hp). pose proof (lookup_lt_Some _ _ _ Hp) as Hlt.
    split; [lia|]. split; [|split; [done|]].
    + intros _. rewrite Nat2Z.id. split; [done|lia].
    + split.
      * intros Hz. assert (p = 0%nat) as -> by lia. simpl in Hp. congruence.
      * intros ->. assert (p = 0%nat) as ->; [|done].
        eapply NoDup_lookup; [exact Hnd|exact Hp|done].
  - rewrite (Hout Hw). split; [lia|]. split; [done|]. split; [done|].
    split.
    + simpl length. lia.
    + intros ->. exfalso. apply Hw, list_elem_of_here.
Qed.

Lemma count_tokens_app n (a c : list Z) :
  count_tokens n (a ++ c) = count_tokens n a + count_tokens n c.
Proof. unfold count_tokens. rewrite filter_app, length_app. lia. Qed.

Lemma count_tokens_all n (l : list Z) :
  Forall (fun x => 1 <= x < Z.of_nat n) l -> count_tokens n l = Z.of_nat (length l).
Proof.
  unfold count_tokens. induction 1 as [|x l Hx Hl IH]; [done|].
  rewrite filter_cons_True by done. simpl length. lia.
Qed.

Lemma count_tokens_none n (l : list Z) :
  Forall (fun x => ~ 1 <= x < Z.of_nat n) l -> count_tokens n l = 0.
Proof.
  unfold count_tokens. induction 1 as [|x l Hx Hl IH]; [done|].
  rewrite filter_cons_False by done. done.
Qed.

(** X6. After [adapt] on a layer with at least one out-of-vocabulary
    bucket, [call] maps each entry of the preprocessed batch to an id
    from 0 to [len(vocab) + n_oov_buckets - 1]: a word of the
    vocabulary gets its position in the vocabulary, any other word the
    bucket [len(vocab) + Fingerprint64(word) mod n_oov_buckets], and the
    id is 0 exactly for [b'<pad>']. *)
Theorem TextVectorization_call_ids max_size k (data_sample inputs : list bytes) :
  0 < k ->
  exists self vocab rows ids,
    TextVectorization.adapt (TextVectorization.init max_size k) data_sample = Some self /\
    get_vocabulary data_sample max_size = Some vocab /\
    TextVectorization.vocab self = Some vocab /\
    preprocess_text inputs 50 = Some rows /\
    TextVectorization.call Fingerprint64 self inputs = Some ids /\
    Forall2 (Forall2 (fun w id =>
               0 <= id < Z.of_nat (length vocab) + k /\
               (w ∈ vocab -> vocab !! Z.to_nat id = Some w /\ id < Z.of_nat (length vocab)) /\
               (w ∉ vocab ->
                id = Z.of_nat (length vocab) + Z.of_N (Fingerprint64 w) mod k) /\
               (id = 0 <-> w = pad)))
            rows ids.
Proof.
  intros Hk.
  destruct (adapt_call max_size k data_sample inputs Hk)
    as (words & table & Hvocab & Hnd & _ & Hadapt & Hcall & Hlookup).
  eexists _, _, _, _. split; [exact Hadapt|]. split; [exact Hvocab|].
  split; [done|]. split; [apply preprocess_text_unfold|]. split; [exact Hcall|].
  apply Forall2_fmap_r, Forall_Forall2_diag, Forall_forall. intros row _. simpl.
  apply Forall2_fmap_r, Forall_Forall2_diag, Forall_forall. intros w _.
  destruct (Hlookup w) as [Hin Hout]. by apply lookup_word_id.
Qed.

(** X7. [adapt] raises exactly when the layer was built with
    [n_oov_buckets <= 0], whatever the sample: the vocabulary is always
    computed, and the lookup table refuses to be built without an
    out-of-vocabulary bucket. *)
Theorem TextVectorization_adapt_raises max_size k (data_sample : list bytes) :
  TextVectorization.adapt (TextVectorization.init max_size k) data_sample = None
  <-> k <= 0.
Proof.
  split.
  - intros Hnone. destruct (decide (k <= 0)) as [|Hk]; [done|]. exfalso.
    unfold TextVectorization.adapt, TextVectorization.init in Hnone.
    cbn [TextVectorization.max_vocabulary_size TextVectorization.n_oov_buckets] in Hnone.
    destruct (vocabulary_words data_sample max_size) as (words & Hvocab & Hnd & _).
    rewrite Hvocab in Hnone. cbn [mbind option_bind] in Hnone.
    rewrite make_table_vocab in Hnone by (done || lia). done.
  - intros Hk. unfold TextVectorization.adapt, TextVectorization.init.
    cbn [TextVectorization.max_vocabulary_size TextVectorization.n_oov_buckets].
    destruct (vocabulary_words data_sample max_size) as (words & -> & _).
    cbn [mbind option_bind]. rewrite make_table_no_buckets by done. done.
Qed.

(** X8. The two layers composed as the notebook composes them, with
    [n_tokens = max_vocabulary_size + n_oov_buckets + 1]: every id
    [TextVectorization] returns is below [n_tokens], so no token is lost
    by the one-hot encoding, and the bag of words of a review has
    [max_vocabulary_size + n_oov_buckets] columns that add up to the
    number of entries of its preprocessed row other than the padding
    (the rows have 50 entries, far from where float32 stops
    counting). *)
Theorem bag_of_words_of_reviews max_size k (data_sample inputs : list bytes) :
  0 <= max_size -> 0 < k ->
  exists self rows ids,
    TextVectorization.adapt (TextVectorization.init max_size k) data_sample = Some self /\
    preprocess_text inputs 50 = Some rows /\
    TextVectorization.call Fingerprint64 self inputs = Some ids /\
    Forall (Forall (fun id => 0 <= id < n_tokens max_size k)) ids /\
    Forall2 (fun row out =>
               length row = 50%nat /\
               length out = Z.to_nat (max_size + k) /\
               row_sum out = Z.of_nat (length (filter (fun w => w <> pad) row)))
            rows
            (BagOfWords.call {| BagOfWords.n_tokens := Z.to_nat (n_tokens max_size k) |} ids).
Proof.
  intros Hm Hk.
  destruct (adapt_call max_size k data_sample inputs Hk)
    as (words & table & Hvocab & Hnd & Hlen & Hadapt & Hcall & Hlookup).
  eexists _, _, _. split; [exact Hadapt|]. split; [apply preprocess_text_unfold|].
  split; [exact Hcall|].
  assert (Hid : forall w,
             let id := TF.table_lookup Fingerprint64 table w in
             0 <= id < n_tokens max_size k /\ (id = 0 <-> w = pad)).
  { intros w. destruct (Hlookup w) as [Hin Hout].
    destruct (lookup_word_id words k table w Hk Hnd Hin Hout) as (Hb & _ & _ & Hz).
    split; [|done]. unfold n_tokens. simpl length in Hb. lia. }
  split.
  - apply Forall_fmap, Forall_forall. intros row _. simpl.
    apply Forall_fmap, Forall_forall. intros w _. apply Hid.
  - unfold BagOfWords.call, TF.slice_cols_from, TF.reduce_sum_axis1, TF.one_hot.
    cbn [BagOfWords.n_tokens]. rewrite !map_map.
    apply Forall2_fmap, Forall_Forall2_diag, Forall_forall. intros x _.
    set (row := resize 50 pad (words_of x)).
    assert (Hrow : length row = 50%nat) by apply length_resize.
    split; [done|].
    rewrite sum_float32_exact by (rewrite length_map, Hrow; lia).
    split.
    + rewrite length_drop, sum_one_hot_length. unfold n_tokens. lia.
    + rewrite row_sum_bag. clearbody row. clear Hrow.
      induction row as [|w row IH]; [done|]. cbn [map].
      change (TF.table_lookup Fingerprint64 table w :: map (TF.table_lookup Fingerprint64 table) row)
        with ([TF.table_lookup Fingerprint64 table w]
              ++ map (TF.table_lookup Fingerprint64 table) row).
      rewrite count_tokens_app, IH. destruct (Hid w) as [Hb Hz]. unfold n_tokens in Hb |- *.
      destruct (decide (w = pad)) as [->|Hne].
      * rewrite filter_cons_False by (intros Hne; by apply Hne).
        rewrite count_tokens_none; [lia|].
        constructor; [|constructor]. rewrite (proj2 Hz eq_refl). lia.
      * rewrite filter_cons_True by done.
        rewrite count_tokens_all; [simpl length; lia|].
        constructor; [|constructor].
        assert (TF.table_lookup Fingerprint64 table w <> 0) by tauto. lia.
Qed.

End TextVectorizationFacts.

Lemma TextVectorization_adapt_raises_witness :
  Chapter13.TextVectorization.adapt (Chapter13.TextVectorization.init 1000 0) X_example = None.
Proof.
  apply (proj2 (TextVectorization_adapt_raises 1000 0 X_example)). lia.
Defined.

Lemma TextVectorization_call_ids_witness :
  exists self vocab rows ids,
    Chapter13.TextVectorization.adapt (Chapter13.TextVectorization.init 1000 100) X_example
      = Some self /\
    Chapter13.get_vocabulary X_example 1000 = Some vocab /\
    Chapter13.TextVectorization.vocab self = Some vocab /\
    Chapter13.preprocess_text [b "A great movie, really"] 50 = Some rows /\
    Chapter13.TextVectorization.call (fun w => N.of_nat (length w)) self
      [b "A great movie, really"] = Some ids /\
    Forall2 (Forall2 (fun w id =>
               0 <= id < Z.of_nat (length vocab) + 100 /\
               (w ∈ vocab -> vocab !! Z.to_nat id = Some w /\ id < Z.of_nat (length vocab)) /\
               (w ∉ vocab ->
                id = Z.of_nat (length vocab) + Z.of_N (N.of_nat (length w)) mod 100) /\
               (id = 0 <-> w = Chapter13.pad)))
            rows ids.
Proof.
  apply (TextVectorization_call_ids (fun w => N.of_nat (length w)) 1000 100
           X_example [b "A great movie, really"]).
  lia.
Defined.

Lemma bag_of_words_of_reviews_witness :
  exists self rows ids,
    Chapter13.TextVectorization.adapt (Chapter13.TextVectorization.init 1000 100) X_example
      = Some self /\
    Chapter13.preprocess_text X_example 50 = Some rows /\
    Chapter13.TextVectorization.call (fun w => N.of_nat (length w)) self X_example = Some ids /\
    Forall (Forall (fun id => 0 <= id < Chapter13.n_tokens 1000 100)) ids /\
    Forall2 (fun row out =>
               length row = 50%nat /\
               length out = Z.to_nat (1000 + 100) /\
               row_sum out = Z.of_nat (length (filter (fun w => w <> Chapter13.pad) row)))
            rows
            (Chapter13.BagOfWords.call
               {| Chapter13.BagOfWords.n_tokens := Z.to_nat (Chapter13.n_tokens 1000 100) |} ids).
Proof.
  apply (bag_of_words_of_reviews (fun w => N.of_nat (length w)) 1000 100 X_example X_example);
    lia.
Defined.

(** ** The sizes of the shards, and what is read back from them *)

Section ShardFacts.

Import Chapter13.

Lemma shard_length {A} n j (data : list A) :
  (j < n)%nat ->
  length (shard n j data)
  = (length data / n + if decide (j < length data mod n)%nat then 1 else 0)%nat.
Proof.
  intros Hj. induction data as [|x data IH] using rev_ind.
  - simpl. rewrite Nat.Div0.div_0_l, Nat.Div0.mod_0_l. simpl. done.
  - rewrite shard_snoc, !length_app, IH. simpl length.
    set (L := length data) in *.
    assert (Hn : n <> 0%nat) by lia.
    pose proof (Nat.div_mod_eq L n) as HL.
    pose proof (Nat.mod_upper_bound L n Hn) as Hr.
    destruct (decide (L mod n + 1 < n)%nat) as [Hlt|Hge].
    + rewrite <- (Nat.div_unique (L + 1) n (L / n) (L mod n + 1)) by lia.
      rewrite <- (Nat.mod_unique (L + 1) n (L / n) (L mod n + 1)) by lia.
      repeat destruct (decide _); simpl; lia.
    + rewrite <- (Nat.div_unique (L + 1) n (L / n + 1) 0) by lia.
      rewrite <- (Nat.mod_unique (L + 1) n (L / n + 1) 0) by lia.
      repeat destruct (decide _); simpl; lia.
Qed.

Lemma save_item_None writers n_records items :
  foldl (save_item writers n_records) None items = None.
Proof. induction items as [|item items IH]; simpl; [done|exact IH]. Qed.

(** X9. The shards are balanced: for [n_records >= 1] and a dataset of
    [L] items, file [j] holds [L / n_records] records, and one more when
    [j < L mod n_records]; in particular an empty dataset leaves
    [n_records] empty files. *)
Theorem save_tfrecords_balanced (name : string) (data : list (TF.Tensor * Z))
    (n_records : Z) (fs : TF.files) :
  1 <= n_records ->
  exists fs' : TF.files,
    save_tfrecords name data n_records fs
      = Some (map (filepath name) (range n_records), fs') /\
    forall j, 0 <= j < n_records ->
      exists records,
        fs' !! filepath name (Z.to_N j) = Some records /\
        Z.of_nat (length records)
        = Z.of_nat (length data) / n_records +
          (if decide (j < Z.of_nat (length data) mod n_records) then 1 else 0).
Proof.
  intros Hn.
  destruct (save_tfrecords_files name data (Z.to_nat n_records) fs ltac:(lia))
    as (fs' & Hsave & Hfiles & _).
  rewrite Z2Nat.id in Hsave by lia.
  exists fs'. split; [exact Hsave|]. intros j Hj.
  eexists. split.
  - rewrite <- (Hfiles (Z.to_nat j)) by lia. by rewrite Z_nat_N.
  - rewrite length_fmap, shard_length by lia.
    rewrite Nat2Z.inj_add, Nat2Z.inj_div, Z2Nat.id by lia. f_equal.
    destruct (decide (Z.to_nat j < _)%nat) as [Hlt|Hge].
    + rewrite decide_True; [done|].
      apply Nat2Z.inj_lt in Hlt. rewrite Nat2Z.inj_mod, !Z2Nat.id in Hlt by lia. done.
    + rewrite decide_False; [done|]. intros Hlt. apply Hge.
      apply Nat2Z.inj_lt. rewrite Nat2Z.inj_mod, !Z2Nat.id by lia. done.
Qed.

Lemma save_tfrecords_balanced_witness :
  exists fs' : TF.files,
    save_tfrecords "fashion_mnist-val"
      [(sample_image, 3); (sample_image, 5); (sample_image, 7)] 2 ∅
      = Some (map (filepath "fashion_mnist-val") (range 2), fs') /\
    forall j, 0 <= j < 2 ->
      exists records,
        fs' !! filepath "fashion_mnist-val" (Z.to_N j) = Some records /\
        Z.of_nat (length records)
        = Z.of_nat 3 / 2 + (if decide (j < Z.of_nat 3 mod 2) then 1 else 0).
Proof.
  apply (save_tfrecords_balanced "fashion_mnist-val"
           [(sample_image, 3); (sample_image, 5); (sample_image, 7)] 2 ∅).
  lia.
Defined.

(** X10. With [n_records <= 0] no file is opened; an empty dataset then
    returns the empty list of paths and leaves the files as they were,
    and any other dataset raises at its first item (a remainder by zero,
    or an index into the empty list of writers). *)
Theorem save_tfrecords_no_files (name : string) (data : list (TF.Tensor * Z))
    (n_records : Z) (fs : TF.files) :
  n_records <= 0 ->
  save_tfrecords name data n_records fs
  = match data with [] => Some ([], fs) | _ :: _ => None end.
Proof.
  intros Hn. unfold save_tfrecords, range.
  replace (Z.to_nat n_records) with 0%nat by lia. cbn [seq map foldl].
  destruct data as [|[image label] data]; [done|].
  cbn [imap foldl]. unfold save_item at 2. cbn [mbind option_bind].
  destruct (decide (n_records = 0)) as [|Hne].
  - by rewrite save_item_None.
  - replace (list_index [] (Z.of_nat 0 mod n_records)) with (@None string).
    + cbn [mbind option_bind]. by rewrite save_item_None.
    + unfold list_index. repeat destruct (decide _); done.
Qed.

Lemma save_tfrecords_no_files_witness :
  save_tfrecords "fashion_mnist-val" [(sample_image, 3)] (-2) ∅ = None.
Proof.
  apply (save_tfrecords_no_files "fashion_mnist-val" [(sample_image, 3)] (-2) ∅). lia.
Defined.

(** X11. Read back with [preprocess], the records of file [j] are the
    items of the dataset at the positions [j], [j + n_records],
    [j + 2 * n_records], ..., in this order, images and labels as they
    were saved. *)
Theorem save_tfrecords_preprocess (name : string) (data : list (TF.Tensor * Z))
    (n_records : Z) (fs : TF.files) :
  1 <= n_records ->
  Forall (fun item => is_image item.1 /\ is_int64 item.2) data ->
  exists fs' : TF.files,
    save_tfrecords name data n_records fs
      = Some (map (filepath name) (range n_records), fs') /\
    forall j, 0 <= j < n_records ->
      exists records items,
        fs' !! filepath name (Z.to_N j) = Some records /\
        mapM preprocess records = Some items /\
        forall i, items !! i = data !! (Z.to_nat j + i * Z.to_nat n_records)%nat.
Proof.
  intros Hn Hdata.
  destruct (save_tfrecords_files name data (Z.to_nat n_records) fs ltac:(lia))
    as (fs' & Hsave & Hfiles & _).
  rewrite Z2Nat.id in Hsave by lia.
  exists fs'. split; [exact Hsave|]. intros j Hj.
  exists (record_of <$> shard (Z.to_nat n_records) (Z.to_nat j) data),
         (shard (Z.to_nat n_records) (Z.to_nat j) data).
  split; [|split].
  - rewrite <- (Hfiles (Z.to_nat j)) by lia. by rewrite Z_nat_N.
  - apply mapM_Some, Forall2_fmap_l, Forall_Forall2_diag, Forall_forall.
    intros [image label] Hin. unfold record_of. simpl.
    assert (Hitem : (image, label) ∈ data).
    { apply list_elem_of_lookup in Hin as [i Hi].
      rewrite shard_lookup in Hi by lia. by eapply list_elem_of_lookup_2. }
    rewrite Forall_forall in Hdata. destruct (Hdata _ Hitem) as [Himg Hlabel].
    by apply preprocess_create_example.
  - intros i. apply shard_lookup. lia.
Qed.

Lemma save_tfrecords_preprocess_witness :
  exists fs' : TF.files,
    save_tfrecords "fashion_mnist-val" [(sample_image, 3); (sample_image, 5)] 2 ∅
      = Some (map (filepath "fashion_mnist-val") (range 2), fs') /\
    forall j, 0 <= j < 2 ->
      exists records items,
        fs' !! filepath "fashion_mnist-val" (Z.to_N j) = Some records /\
        mapM preprocess records = Some items /\
        forall i, items !! i
                  = [(sample_image, 3); (sample_image, 5)] !! (Z.to_nat j + i * Z.to_nat 2)%nat.
Proof.
  apply (save_tfrecords_preprocess "fashion_mnist-val"
           [(sample_image, 3); (sample_image, 5)] 2 ∅); [lia|].
  repeat constructor; simpl; lia.
Defined.

End ShardFacts.

(** ** What [preprocess] returns on the examples of other tensors *)

Section TensorsRead.

Import Proto Chapter13.

Lemma is_tensor_fits t :
  is_tensor t ->
  TF.tensor_ok t /\ TF.tensor_fits t /\
  (N.of_nat (length (TF.serialize_tensor t)) < 2 ^ 32)%N.
Proof.
  intros (Hok & Hrank & Hdims & Hcontent).
  assert (Hdims' : Forall (fun d => d < 2 ^ 64)%N (TF.shape t)).
  { eapply Forall_impl; [exact Hdims|]. intros d Hd. simpl in *. lia. }
  pose proof (encode_shape_size (TF.shape t) Hdims') as Hshape.
  pose proof (serialize_tensor_size t) as Hsize.
  split; [done|]. split; [|lia].
  split; [done|]. split; lia.
Qed.

(** X12. [create_example] takes any numeric tensor, and [preprocess]
    reads its record back as a 28x28 image exactly when the tensor is a
    uint8 tensor of 784 elements, whatever its shape: the image then has
    the elements of the tensor, in their order, and the shape [28, 28],
    and the label is the one saved.  For a tensor of another element
    type [tf.io.parse_tensor] raises, and for another number of
    elements [tf.reshape] does. *)
Theorem preprocess_create_example_tensor (image : TF.Tensor) (label : Z) :
  is_tensor image -> is_int64 label ->
  preprocess (TF.SerializeToString (create_example image label))
  = if decide (TF.dtype image = TF.DT_UINT8 /\ TF.num_elements (TF.shape image) = 784%N)
    then Some ({| TF.dtype := TF.DT_UINT8; TF.shape := [28%N; 28%N];
                  TF.tensor_content := TF.tensor_content image |}, label)
    else None.
Proof.
  intros Himg Hlabel. destruct (is_tensor_fits image Himg) as (Hok & Hfits & Hsize).
  rewrite (preprocess_parsed _ _ (parse_serialized_example_sized image label Hsize Hlabel)).
  unfold TF.parse_dense, create_example. cbn [TF.features TF.feature TF.fl_dtype].
  rewrite lookup_insert_eq, lookup_insert_ne, lookup_insert_eq by done.
  cbn [mbind option_bind].
  rewrite parse_serialize_tensor_type by done.
  destruct (decide (TF.dtype image = TF.DT_UINT8)) as [Hd|Hd].
  - cbn [mbind option_bind]. unfold TF.reshape.
    change (TF.num_elements [28%N; 28%N]) with 784%N.
    destruct (decide (784%N = TF.num_elements (TF.shape image))) as [Hn|Hn].
    + cbn [mbind option_bind]. rewrite decide_True by done. by rewrite Hd.
    + cbn [mbind option_bind]. rewrite decide_False; [done|]. intros [_ Heq]. by apply Hn.
  - cbn [mbind option_bind]. rewrite decide_False; [done|]. tauto.
Qed.

Lemma preprocess_create_example_tensor_witness :
  preprocess (TF.SerializeToString
                (create_example {| TF.dtype := TF.DT_UINT8; TF.shape := [2%N; 392%N];
                                   TF.tensor_content := replicate 784 "a"%char |} 3))
  = Some (sample_image, 3).
Proof.
  refine (eq_trans (preprocess_create_example_tensor
                      {| TF.dtype := TF.DT_UINT8; TF.shape := [2%N; 392%N];
                         TF.tensor_content := replicate 784 "a"%char |} 3 _ _) _).
  - split; [|split; [|split]].
    + exists 1%nat. split; reflexivity.
    + simpl. lia.
    + repeat constructor.
    + reflexivity.
  - unfold is_int64. lia.
  - reflexivity.
Defined.

End TensorsRead.

(** ** The datasets of reviews *)

Section ReviewFacts.

Import Chapter13.

Lemma zip_replicate {A B} (l : list A) (y : B) :
  zip l (replicate (length l) y) = map (fun x => (x, y)) l.
Proof. induction l as [|x l IH]; simpl; [done|]. by rewrite IH. Qed.

(** The inner loop of [create_dataset], over the files of one label. *)
Lemma read_reviews (texts : gmap string bytes) (label : Z) filepaths st :
  foldl (fun st filepath =>
           '(reviews, labels) ← st;
           review ← texts !! filepath;
           Some (reviews ++ [review], labels ++ [label])) st filepaths
  = '(reviews, labels) ← st;
    read ← mapM (fun filepath => texts !! filepath) filepaths;
    Some (reviews ++ read, labels ++ replicate (length read) label).
Proof.
  revert st. induction filepaths as [|p filepaths IH]; intros st; cbn [foldl].
  - destruct st as [[reviews labels]|]; [|done]. simpl. by rewrite !app_nil_r.
  - rewrite IH. destruct st as [[reviews labels]|]; [|done]. cbn [mbind option_bind mapM].
    destruct (texts !! p) as [review|]; [|done]. cbn [mbind option_bind].
    destruct (mapM _ filepaths) as [read|]; [|done]. cbn [mbind option_bind mret option_ret].
    cbn [length replicate]. by rewrite <- !app_assoc.
Qed.

(** X13. [create_dataset] lists the reviews of [filepaths_pos], in
    order and each with the label 1, and after them the reviews of
    [filepaths_neg], each with the label 0; it raises exactly when one
    of the files cannot be opened. *)
Theorem create_dataset_items (texts : gmap string bytes)
    (filepaths_pos filepaths_neg : list string) :
  match create_dataset texts filepaths_pos filepaths_neg with
  | Some dataset =>
      exists reviews_pos reviews_neg,
        Forall2 (fun p r => texts !! p = Some r) filepaths_pos reviews_pos /\
        Forall2 (fun p r => texts !! p = Some r) filepaths_neg reviews_neg /\
        dataset = map (fun r => (r, 1)) reviews_pos ++ map (fun r => (r, 0)) reviews_neg
  | None => exists p, p ∈ filepaths_pos ++ filepaths_neg /\ texts !! p = None
  end.
Proof.
  unfold create_dataset. cbn [foldl]. rewrite !read_reviews.
  cbn [mbind option_bind app].
  destruct (mapM _ filepaths_pos) as [reviews_pos|] eqn:Hpos.
  2:{ cbn [mbind option_bind]. apply mapM_None, Exists_exists in Hpos as (p & Hp & Hnone).
      exists p. split; [|done]. apply elem_of_app. by left. }
  cbn [mbind option_bind].
  destruct (mapM _ filepaths_neg) as [reviews_neg|] eqn:Hneg.
  2:{ cbn [mbind option_bind]. apply mapM_None, Exists_exists in Hneg as (p & Hp & Hnone).
      exists p. split; [|done]. apply elem_of_app. by right. }
  cbn [mbind option_bind]. unfold TF.from_tensor_slices.
  rewrite decide_True by (by rewrite !length_app, !length_replicate).
  exists reviews_pos, reviews_neg.
  split; [by apply mapM_Some|]. split; [by apply mapM_Some|].
  rewrite zip_with_app; [|by rewrite length_replicate].
  by rewrite <- !zip_replicate.
Qed.

Lemma mapM_omap {A B} (f : A -> option B) l k : mapM f l = Some k -> k = omap f l.
Proof.
  intros Hk%mapM_Some. induction Hk as [|x y l k Hx _ IH]; simpl; [done|].
  by rewrite Hx, IH.
Qed.

Lemma omap_lookup_seq {A} (a : list A) start n :
  (start + n <= length a)%nat -> omap (fun i => a !! i) (seq start n) = take n (drop start a).
Proof.
  revert start. induction n as [|n IH]; intros start Hlen; simpl.
  - by rewrite take_0.
  - destruct (lookup_lt_is_Some_2 a start ltac:(lia)) as [x Hx].
    rewrite Hx, IH by lia. rewrite (drop_S _ _ _ Hx). done.
Qed.

Lemma index_array_perm {A} (a : list A) perm n :
  perm ≡ₚ seq 0 n -> (n <= length a)%nat ->
  exists picked, index_array a perm = Some picked /\ picked ≡ₚ take n a.
Proof.
  intros Hperm Hn. unfold index_array.
  destruct (mapM (fun i => a !! i) perm) as [picked|] eqn:Hpicked.
  - exists picked. split; [done|].
    rewrite (mapM_omap _ _ _ Hpicked), Hperm, omap_lookup_seq by lia. by rewrite drop_0.
  - apply mapM_None, Exists_exists in Hpicked as (i & Hi & Hnone).
    rewrite Hperm in Hi. apply elem_of_seq in Hi. apply lookup_ge_None in Hnone. lia.
Qed.

(** X14. The split of the test directory, for [perm] a permutation of
    the positions of [test_val_pos].  When there are at least as many
    negative files as positive ones, the test and validation halves
    together are the positive files, each once, and the first
    [len(test_val_pos)] negative files, each once; the test halves take
    the first 5000 of the permuted arrays; the negative files after
    position [len(test_val_pos)] are in neither half.  With fewer
    negative files than positive ones the indexing raises. *)
Theorem split_test_val_partition (perm : list nat) (test_val_pos test_val_neg : list string) :
  perm ≡ₚ seq 0 (length test_val_pos) ->
  match split_test_val perm test_val_pos test_val_neg with
  | Some (test_pos, test_neg, val_pos, val_neg) =>
      (length test_val_pos <= length test_val_neg)%nat /\
      test_pos ++ val_pos ≡ₚ test_val_pos /\
      test_neg ++ val_neg ≡ₚ take (length test_val_pos) test_val_neg /\
      length test_pos = min 5000 (length test_val_pos) /\
      length test_neg = min 5000 (length test_val_pos)
  | None => (length test_val_neg < length test_val_pos)%nat
  end.
Proof.
  intros Hperm. unfold split_test_val. generalize 5000%nat as k. intros k.
  destruct (index_array_perm test_val_pos perm _ Hperm ltac:(lia)) as (pos & -> & Hpos).
  cbn [mbind option_bind]. rewrite firstn_all in Hpos.
  destruct (decide (length test_val_pos <= length test_val_neg)%nat) as [Hle|Hgt].
  - destruct (index_array_perm test_val_neg perm _ Hperm Hle) as (neg & -> & Hneg).
    cbn [mbind option_bind]. rewrite !take_drop. split; [done|]. do 2 (split; [done|]).
    rewrite !length_take, (Permutation_length Hpos), (Permutation_length Hneg).
    rewrite length_take. lia.
  - unfold index_array.
    destruct (mapM (fun i => test_val_neg !! i) perm) as [neg|] eqn:Hneg;
      cbn [mbind option_bind]; [|lia].
    exfalso. apply mapM_Some in Hneg.
    assert (Hin : length test_val_neg ∈ perm).
    { rewrite Hperm. apply elem_of_seq. lia. }
    apply list_elem_of_lookup in Hin as [i Hi].
    destruct (Forall2_lookup_l _ _ _ _ _ Hneg Hi) as (x & _ & Hx).
    apply lookup_lt_Some in Hx. lia.
Qed.

Lemma split_test_val_partition_witness :
  match split_test_val [2; 0; 1]%nat ["p0"; "p1"; "p2"]%string ["n0"; "n1"; "n2"; "n3"]%string with
  | Some (test_pos, test_neg, val_pos, val_neg) =>
      (length ["p0"; "p1"; "p2"]%string <= length ["n0"; "n1"; "n2"; "n3"]%string)%nat /\
      test_pos ++ val_pos ≡ₚ ["p0"; "p1"; "p2"]%string /\
      test_neg ++ val_neg
        ≡ₚ take (length ["p0"; "p1"; "p2"]%string) ["n0"; "n1"; "n2"; "n3"]%string /\
      length test_pos = min 5000 (length ["p0"; "p1"; "p2"]%string) /\
      length test_neg = min 5000 (length ["p0"; "p1"; "p2"]%string)
  | None => (length ["n0"; "n1"; "n2"; "n3"]%string < length ["p0"; "p1"; "p2"]%string)%nat
  end.
Proof.
  apply (split_test_val_partition [2; 0; 1]%nat).
  apply (Permutation_cons_append [0; 1]%nat 2%nat).
Defined.

End ReviewFacts.

(** ** The paths of two datasets *)

Section PathFacts.

Import Chapter13.

Lemma uint_of_string_underscore (s1 s2 : string) :
  NilEmpty.uint_of_string (s1 +:+ String "_" s2) = None.
Proof.
  induction s1 as [|c s1 IH].
  - change (NilEmpty.uint_of_string (String "_" s2) = None). cbn [NilEmpty.uint_of_string].
    by destruct (NilEmpty.uint_of_string s2).
  - change (NilEmpty.uint_of_string (String c (s1 +:+ String "_" s2)) = None).
    cbn [NilEmpty.uint_of_string]. by rewrite IH.
Qed.

Lemma format_02d_digits idx (s1 s2 : string) : format_02d idx <> s1 +:+ String "_" s2.
Proof.
  intros Heq. pose proof (format_02d_read idx) as Hread.
  by rewrite Heq, uint_of_string_underscore in Hread.
Qed.

(** The last underscore of a path separates the name from the index. *)
Lemma underscore_inj (name name' d d' : string) :
  (forall s1 s2, d <> s1 +:+ String "_" s2) ->
  (forall s1 s2, d' <> s1 +:+ String "_" s2) ->
  name +:+ String "_" d = name' +:+ String "_" d' -> name = name' /\ d = d'.
Proof.
  intros Hd Hd'. revert name'.
  induction name as [|c name IH]; intros [|c' name'] Heq.
  - change (String "_" d = String "_" d') in Heq. by injection Heq as ->.
  - change (String "_" d = String c' (name' +:+ String "_" d')) in Heq.
    injection Heq as _ Heq. by apply Hd in Heq.
  - change (String c (name +:+ String "_" d) = String "_" d') in Heq.
    injection Heq as _ Heq. symmetry in Heq. by apply Hd' in Heq.
  - change (String c (name +:+ String "_" d) = String c' (name' +:+ String "_" d')) in Heq.
    injection Heq as -> Heq. destruct (IH _ Heq) as [-> ->]. done.
Qed.

Lemma filepath_name_inj name name' idx idx' :
  filepath name idx = filepath name' idx' -> name = name' /\ idx = idx'.
Proof.
  unfold filepath. intros Heq.
  change (name +:+ String "_" (format_02d idx +:+ ".tfrecord")
          = name' +:+ String "_" (format_02d idx' +:+ ".tfrecord")) in Heq.
  assert (Hassoc : forall n i, n +:+ String "_" (format_02d i +:+ ".tfrecord")
                               = (n +:+ String "_" (format_02d i)) +:+ ".tfrecord").
  { intros n i. induction n as [|c n IH]; [done|].
    change (String c (n +:+ String "_" (format_02d i +:+ ".tfrecord"))
            = String c ((n +:+ String "_" (format_02d i)) +:+ ".tfrecord")).
    by rewrite IH. }
  rewrite !Hassoc in Heq. apply string_app_inj_r in Heq.
  apply underscore_inj in Heq as [-> Heq]; [|apply format_02d_digits..].
  split; [done|].
  pose proof (format_02d_read idx) as Hi. rewrite Heq, format_02d_read in Hi. congruence.
Qed.

(** X15. A path tells its dataset and its shard: a string that two
    calls of [save_tfrecords] both return was returned for the same
    name and at the same index, so calls with different names return
    lists of paths without a common string.  (Whether two different
    strings name one file is the file system's business.) *)
Theorem save_tfrecords_paths_by_name (name name' : string)
    (data data' : list (TF.Tensor * Z)) (n_records n_records' : Z) (fs fs0 : TF.files) :
  1 <= n_records -> 1 <= n_records' ->
  exists filepaths fs1 filepaths' fs2,
    save_tfrecords name data n_records fs = Some (filepaths, fs1) /\
    save_tfrecords name' data' n_records' fs0 = Some (filepaths', fs2) /\
    forall j j' p,
      filepaths !! j = Some p -> filepaths' !! j' = Some p -> name = name' /\ j = j'.
Proof.
  intros Hn Hn'.
  destruct (save_tfrecords_files name data (Z.to_nat n_records) fs ltac:(lia))
    as (fs1 & Hsave & _).
  destruct (save_tfrecords_files name' data' (Z.to_nat n_records') fs0 ltac:(lia))
    as (fs2 & Hsave' & _).
  rewrite Z2Nat.id in Hsave, Hsave' by lia.
  eexists _, fs1, _, fs2. split; [exact Hsave|]. split; [exact Hsave'|].
  intros j j' p Hp Hp'. unfold range in Hp, Hp'.
  rewrite !list_lookup_fmap in Hp, Hp'.
  destruct (seq 0 (Z.to_nat n_records) !! j) as [i|] eqn:Hi; [|done].
  destruct (seq 0 (Z.to_nat n_records') !! j') as [i'|] eqn:Hi'; [|done].
  apply lookup_seq in Hi as [-> _]. apply lookup_seq in Hi' as [-> _].
  injection Hp as <-. injection Hp' as Heq.
  apply filepath_name_inj in Heq as [-> Heq]. split; [done|]. lia.
Qed.

Lemma save_tfrecords_paths_by_name_witness :
  exists filepaths fs1 filepaths' fs2,
    save_tfrecords "fashion_mnist-train" [(sample_image, 3)] 20 ∅ = Some (filepaths, fs1) /\
    save_tfrecords "fashion_mnist-val" [(sample_image, 5)] 20 ∅ = Some (filepaths', fs2) /\
    forall j j' p,
      filepaths !! j = Some p -> filepaths' !! j' = Some p ->
      "fashion_mnist-train"%string = "fashion_mnist-val"%string /\ j = j'.
Proof.
  apply (save_tfrecords_paths_by_name "fashion_mnist-train" "fashion_mnist-val"
           [(sample_image, 3)] [(sample_image, 5)] 20 20 ∅ ∅); lia.
Defined.

End PathFacts.
